(** * Flip-Card-App: the persisted store layer and the import routines

    A shallow embedding of [src/lib/store.ts] and of the text routines of
    [src/pages/ImportExport.tsx], with the properties the specification
    states about them.

    Conventions of the embedding.
    - A JavaScript string is a [string]: one [ascii] per code unit, so the
      model covers the code units below 256.
    - An object used as a dictionary ([Record<string, Card[]>]) is a
      [gmap string _] of its own properties.  A read [obj[key]] of a key
      that is no own property goes on to [Object.prototype] and finds
      what every object inherits ([getProperty]).  An assignment
      [obj[key] = value] makes an own property; JavaScript does
      otherwise for the one key [__proto__], which no identifier drawn
      by [generateId] is.  An object of unknown shape read from storage
      or from a file is a [JValue].
    - [Date], [String.prototype.localeCompare], [crypto.randomUUID] and the
      clock belong to the runtime: the first two are section variables,
      generated identifiers and the current instant are explicit
      arguments of the operations that draw them.
    - A function that may throw returns an [Outcome]; code that also
      writes state is a function of the state ([St]).
    - A zod schema is the function it denotes, after the documented
      behaviour of zod: issues add up, an aborted part aborts the whole,
      refinements are skipped after an abort. *)

From Stdlib Require Import Ascii String ZArith Lia.
From stdpp Require Import ssreflect base option list strings gmap fin_maps.

Local Open Scope string_scope.
Local Open Scope Z_scope.
Local Open Scope list_scope.

#[local] Set Warnings "-register-all,-rewrite-rw,-clear-no-such-hyp".
#[local] Set Default Proof Using "Type".

(** ** Text *)

(** [WhiteSpace] and [LineTerminator] code units below 256, the ones
    [String.prototype.trim] strips. *)
Definition isWhiteSpace (c : ascii) : bool :=
  match N_of_ascii c with
  | 9%N | 10%N | 11%N | 12%N | 13%N | 32%N | 160%N => true
  | _ => false
  end.

Fixpoint trimStart (s : string) : string :=
  match s with
  | EmptyString => EmptyString
  | String c rest => if isWhiteSpace c then trimStart rest else s
  end.

Fixpoint trimEnd (s : string) : string :=
  match s with
  | EmptyString => EmptyString
  | String c rest =>
      match trimEnd rest with
      | EmptyString => if isWhiteSpace c then EmptyString else String c EmptyString
      | kept => String c kept
      end
  end.

(** [s.trim()] *)
Definition trim (s : string) : string := trimEnd (trimStart s).

(** [!s] for a string [s]: the empty string is the only falsy one. *)
Definition isEmpty (s : string) : bool :=
  match s with EmptyString => true | _ => false end.

(** [s || undefined] *)
Definition orUndefined (s : string) : option string :=
  if isEmpty s then None else Some s.

(** ** Outcomes of code that may throw *)

(** A zod issue; paths are not modelled. *)
Inductive Issue :=
  | invalid_type (expected : string)
  | invalid_enum_value
  | too_small (minimum : nat) (message : option string)
  | custom (message : string).

(** The text of a [TypeError] is the engine's and is left out. *)
Inductive Exn :=
  | Error (message : string)
  | RangeError (message : string)
  | TypeError
  | SyntaxError
  | ZodError (issues : list Issue).

Inductive Outcome (A : Type) :=
  | Returned (a : A)
  | Threw (e : Exn).
Arguments Returned {A} a.
Arguments Threw {A} e.

#[global] Instance Outcome_ret : MRet Outcome := fun A a => Returned a.
#[global] Instance Outcome_bind : MBind Outcome := fun A B f m =>
  match m with
  | Returned a => f a
  | Threw e => Threw e
  end.

(** [xs.map(f)] where [f] may throw: the first throw ends the loop. *)
Fixpoint mapOutcome {A B} (f : A -> Outcome B) (xs : list A) : Outcome (list B) :=
  match xs with
  | [] => Returned []
  | x :: rest => y ← f x; ys ← mapOutcome f rest; mret (y :: ys)
  end.

(** ** Data model *)

Record Deck := mkDeck {
  deck_id : string;
  title : string;
  description : option string;
  createdAt : string;
  updatedAt : string;
}.

Record Card := mkCard {
  card_id : string;
  front : string;
  back : string;
}.

Inductive StudyMode := ordered | shuffle.

Record Settings := mkSettings {
  defaultStudyMode : StudyMode;
  rememberLastDeck : bool;
  reducedMotion : bool;
  lastDeckId : option string;
}.

Record StoreState := mkStore {
  decks : list Deck;
  cardsByDeck : gmap string (list Card);
  settings : Settings;
}.

#[global] Instance StudyMode_eq_dec : EqDecision StudyMode.
Proof. solve_decision. Defined.

(** [Partial<Settings>]: a key is missing ([None]), present and
    [undefined] ([Some None]) or present with a value. *)
Record PartialSettings := mkPartial {
  p_defaultStudyMode : option (option StudyMode);
  p_rememberLastDeck : option (option bool);
  p_reducedMotion : option (option bool);
  p_lastDeckId : option (option string);
}.

Definition noChanges : PartialSettings := mkPartial None None None None.

(** A [Settings] object seen as a [Partial<Settings>]: every key present. *)
Definition asPartial (s : Settings) : PartialSettings :=
  mkPartial (Some (Some (defaultStudyMode s))) (Some (Some (rememberLastDeck s)))
            (Some (Some (reducedMotion s))) (Some (lastDeckId s)).

(** One key of [{ ...a, ...b }]. *)
Definition spreadKey {A} (a b : option A) : option A :=
  match b with Some v => Some v | None => a end.

(** [{ ...a, ...b }] *)
Definition spread (a b : PartialSettings) : PartialSettings :=
  mkPartial (spreadKey (p_defaultStudyMode a) (p_defaultStudyMode b))
            (spreadKey (p_rememberLastDeck a) (p_rememberLastDeck b))
            (spreadKey (p_reducedMotion a) (p_reducedMotion b))
            (spreadKey (p_lastDeckId a) (p_lastDeckId b)).

(** Reading a key: a missing key reads as [undefined]. *)
Definition readKey {A} (k : option (option A)) : option A :=
  match k with Some v => v | None => None end.

(** [Boolean(x)] for [x : boolean | undefined] *)
Definition Boolean (x : option bool) : bool :=
  match x with Some b => b | None => false end.

Definition defaultSettings : Settings :=
  mkSettings ordered false false None.

Definition normalizeSettings (settings : option PartialSettings) : Settings :=
  let merged := spread (asPartial defaultSettings) (default noChanges settings) in
  let defaultStudyMode :=
    if decide (readKey (p_defaultStudyMode merged) = Some shuffle) then shuffle else ordered in
  let rememberLastDeck := Boolean (readKey (p_rememberLastDeck merged)) in
  let reducedMotion := Boolean (readKey (p_reducedMotion merged)) in
  let lastDeckId := if rememberLastDeck then readKey (p_lastDeckId merged) else None in
  mkSettings defaultStudyMode rememberLastDeck reducedMotion lastDeckId.

Definition trimCard (card : Card) : Card :=
  mkCard (card_id card) (trim (front card)) (trim (back card)).

(** ** Reading a dictionary *)

(** The names of the properties of [Object.prototype]: a read finds them
    on every object that has no own property of the name. *)
Definition inheritedNames : list string :=
  ["constructor"; "hasOwnProperty"; "isPrototypeOf"; "propertyIsEnumerable";
   "toLocaleString"; "toString"; "valueOf"; "__proto__";
   "__defineGetter__"; "__defineSetter__"; "__lookupGetter__"; "__lookupSetter__"].

Definition inherited (key : string) : bool := bool_decide (key ∈ inheritedNames).

(** What a read finds under a key. *)
Inductive Property (A : Type) :=
  | ownProperty (value : A)
  | inheritedProperty
  | noProperty.
Arguments ownProperty {A} value.
Arguments inheritedProperty {A}.
Arguments noProperty {A}.

(** [obj[key]] *)
Definition getProperty {A} (obj : gmap string A) (key : string) : Property A :=
  match obj !! key with
  | Some value => ownProperty value
  | None => if inherited key then inheritedProperty else noProperty
  end.

(** [(obj[key] ?? []).method(...)] for a method of arrays.  What is
    inherited is a function, or the prototype itself under [__proto__]:
    it is not nullish and has no such method, and the call throws. *)
Definition arrayAt {A} (obj : gmap string (list A)) (key : string) : Outcome (list A) :=
  match getProperty obj key with
  | ownProperty items => Returned items
  | inheritedProperty => Threw TypeError
  | noProperty => Returned []
  end.

(** ** Untyped values

    What [JSON.parse] returns, and any object handed to a schema.  An
    object is the list of its own properties; a read finds the first
    binding of the key. *)
Inductive JValue :=
  | JUndefined
  | JNull
  | JBool (b : bool)
  | JNumber (n : Z)
  | JString (s : string)
  | JArray (items : list JValue)
  | JObject (fields : list (string * JValue)).

(** [obj[key]] for a key of a schema, none of which names a property
    that objects inherit: a missing property reads as [undefined]. *)
Fixpoint getField (fields : list (string * JValue)) (key : string) : JValue :=
  match fields with
  | [] => JUndefined
  | (k, v) :: rest => if decide (k = key) then v else getField rest key
  end.

(** ** Schemas

    A zod schema is the function it denotes.  A parse yields the value
    unless it aborted, and the issues raised so far: no value is zod's
    [aborted], a value with issues is [dirty], a value without is
    [valid]. *)
Definition Parse (A : Type) : Type := option A * list Issue.

Definition valid {A} (a : A) : Parse A := (Some a, []).
Definition aborted {A} (i : Issue) : Parse A := (None, [i]).

Definition isValid {A} (p : Parse A) : bool :=
  match p with (Some _, []) => true | _ => false end.

(** Fields of an object, items of an array: every part is parsed, the
    issues add up, and one aborted part aborts the whole. *)
Definition pmap {A B} (f : A -> B) (p : Parse A) : Parse B := (f <$> p.1, p.2).
Definition pap {A B} (pf : Parse (A -> B)) (p : Parse A) : Parse B :=
  (match pf.1, p.1 with Some f, Some a => Some (f a) | _, _ => None end, pf.2 ++ p.2).

Fixpoint pall {A} (ps : list (Parse A)) : Parse (list A) :=
  match ps with
  | [] => valid []
  | p :: rest => pap (pmap cons p) (pall rest)
  end.

(** [schema.parse(v)] *)
Definition parse {A} (p : Parse A) : Outcome A :=
  match p with
  | (Some a, []) => Returned a
  | (_, issues) => Threw (ZodError issues)
  end.

Definition zString (v : JValue) : Parse string :=
  match v with JString s => valid s | _ => aborted (invalid_type "string") end.

Definition zBoolean (v : JValue) : Parse bool :=
  match v with JBool b => valid b | _ => aborted (invalid_type "boolean") end.

(** [.min(n, message)] on a string schema: the check raises an issue and
    parsing goes on. *)
Definition zMin (n : nat) (message : option string) (p : Parse string) : Parse string :=
  match p.1 with
  | Some s => if (String.length s <? n)%nat then (Some s, p.2 ++ [too_small n message]) else p
  | None => p
  end.

(** [.refine(check, { message })]: skipped when the inner parse aborted. *)
Definition zRefine {A} (check : A -> bool) (message : string) (p : Parse A) : Parse A :=
  match p.1 with
  | Some a => if check a then p else (Some a, p.2 ++ [custom message])
  | None => p
  end.

(** [.optional()] *)
Definition zOptional {A} (schema : JValue -> Parse A) (v : JValue) : Parse (option A) :=
  match v with JUndefined => valid None | _ => pmap Some (schema v) end.

(** [.nullable()]; [null] and [undefined] both embed as [None], which is
    all the transform that follows in the source tells apart. *)
Definition zNullable {A} (schema : JValue -> Parse (option A)) (v : JValue) : Parse (option A) :=
  match v with JNull => valid None | _ => schema v end.

(** [.transform(f)] runs on a valid parse only. *)
Definition zTransform {A B} (f : A -> B) (p : Parse A) : Parse B :=
  match p with
  | (Some a, []) => valid (f a)
  | (_, issues) => (None, issues)
  end.

(** [.catch(fallback)]: any failure, with its issues, is replaced. *)
Definition zCatch {A} (fallback : A) (p : Parse A) : Parse A :=
  match p with
  | (Some a, []) => valid a
  | _ => valid fallback
  end.

(** [z.array(item)] *)
Definition zArray {A} (item : JValue -> Parse A) (v : JValue) : Parse (list A) :=
  match v with
  | JArray items => pall (item <$> items)
  | _ => aborted (invalid_type "array")
  end.

(** [.min(n, message)] on an array schema *)
Definition zMinItems {A} (n : nat) (message : option string) (p : Parse (list A))
  : Parse (list A) :=
  match p.1 with
  | Some l => if (List.length l <? n)%nat then (Some l, p.2 ++ [too_small n message]) else p
  | None => p
  end.

(** [z.record(z.string(), value)]: each property is parsed and assigned
    to the result under its key. *)
Definition zRecord {A} (value : JValue -> Parse A) (v : JValue) : Parse (gmap string A) :=
  match v with
  | JObject fields =>
      pmap (foldl (fun acc kv => <[kv.1 := kv.2]> acc) ∅)
           (pall ((fun kv => pmap (pair kv.1) (value kv.2)) <$> fields))
  | _ => aborted (invalid_type "object")
  end.

(** [z.enum(["ordered", "shuffle"])] *)
Definition zStudyMode (v : JValue) : Parse StudyMode :=
  match v with
  | JString s =>
      if decide (s = "ordered") then valid ordered
      else if decide (s = "shuffle") then valid shuffle
      else aborted invalid_enum_value
  | _ => aborted (invalid_type "'ordered' | 'shuffle'")
  end.

Definition cardSchema (v : JValue) : Parse Card :=
  match v with
  | JObject o =>
      pap (pap (pmap mkCard (zMin 1 None (zString (getField o "id"))))
               (zMin 1 None (zString (getField o "front"))))
          (zMin 1 None (zString (getField o "back")))
  | _ => aborted (invalid_type "object")
  end.

Definition settingsSchema (v : JValue) : Parse Settings :=
  match v with
  | JObject o =>
      pap (pap (pap (pmap mkSettings
                 (zCatch (defaultStudyMode defaultSettings)
                         (zStudyMode (getField o "defaultStudyMode"))))
                 (zCatch (rememberLastDeck defaultSettings)
                         (zBoolean (getField o "rememberLastDeck"))))
                 (zCatch (reducedMotion defaultSettings)
                         (zBoolean (getField o "reducedMotion"))))
          (zTransform (fun value => value)
                      (zNullable (zOptional zString) (getField o "lastDeckId")))
  | _ => aborted (invalid_type "object")
  end.

(** The transform of [deckSchema.description]. *)
Definition cleanDescription (value : option string) : option string :=
  match value with
  | None => None
  | Some d => if isEmpty (trim d) then None else Some (trim d)
  end.

(** The output of [storeSchema]. *)
Record ValidStore := mkValid {
  v_decks : list Deck;
  v_cardsByDeck : gmap string (list Card);
  v_settings : option Settings;
}.

(** The callback of [superRefine]: one issue per deck for which
    [!data.cardsByDeck[deck.id]] holds.  An array is truthy, and so is
    what is inherited. *)
Definition missingCards (data : ValidStore) : list Issue :=
  flat_map (fun deck =>
              match getProperty (v_cardsByDeck data) (deck_id deck) with
              | noProperty => [custom ("Missing cards array for deck " +:+ deck_id deck)]
              | _ => []
              end)
           (v_decks data).

(** [.superRefine(callback)]: skipped when the inner parse aborted. *)
Definition zSuperRefine {A} (callback : A -> list Issue) (p : Parse A) : Parse A :=
  match p.1 with
  | Some a => (Some a, p.2 ++ callback a)
  | None => p
  end.

(** ** Typed values as untyped ones *)

Definition optJS (o : option string) : JValue :=
  match o with Some s => JString s | None => JUndefined end.

Definition cardJS (card : Card) : JValue :=
  JObject [("id", JString (card_id card)); ("front", JString (front card));
           ("back", JString (back card))].

Definition deckJS (deck : Deck) : JValue :=
  JObject [("id", JString (deck_id deck)); ("title", JString (title deck));
           ("description", optJS (description deck));
           ("createdAt", JString (createdAt deck)); ("updatedAt", JString (updatedAt deck))].

Definition modeJS (m : StudyMode) : JValue :=
  JString (match m with ordered => "ordered" | shuffle => "shuffle" end).

Definition settingsJS (s : Settings) : JValue :=
  JObject [("defaultStudyMode", modeJS (defaultStudyMode s));
           ("rememberLastDeck", JBool (rememberLastDeck s));
           ("reducedMotion", JBool (reducedMotion s));
           ("lastDeckId", optJS (lastDeckId s))].

Definition cardsByDeckJS (m : gmap string (list Card)) : JValue :=
  JObject ((fun kv => (kv.1, JArray (cardJS <$> kv.2))) <$> map_to_list m).

Definition storeJS (store : StoreState) : JValue :=
  JObject [("decks", JArray (deckJS <$> decks store));
           ("cardsByDeck", cardsByDeckJS (cardsByDeck store));
           ("settings", settingsJS (settings store))].

Definition validJS (data : ValidStore) : JValue :=
  JObject [("decks", JArray (deckJS <$> v_decks data));
           ("cardsByDeck", cardsByDeckJS (v_cardsByDeck data));
           ("settings", from_option settingsJS JUndefined (v_settings data))].

(** [JSON.parse(JSON.stringify(v))]: a property whose value is
    [undefined] is left out, an [undefined] array item becomes [null]. *)
Fixpoint toJSON (v : JValue) : JValue :=
  match v with
  | JArray items =>
      JArray (map (fun x => match x with JUndefined => JNull | _ => toJSON x end) items)
  | JObject fields =>
      JObject (omap (fun '(k, x) => match x with
                                     | JUndefined => None
                                     | _ => Some (k, toJSON x)
                                     end) fields)
  | _ => v
  end.

(** ** State

    The module-level [inMemoryStore] and the [localStorage] slot under
    [STORAGE_KEY].  [localStorage] is [None] where [hasLocalStorage()] is
    false; the slot is [None] where [getItem] returns [null] or the empty
    string, and otherwise holds what [JSON.parse] makes of the text. *)
Inductive Item :=
  | Garbled
  | Document (v : JValue).

Record World := mkWorld {
  inMemoryStore : StoreState;
  localStorage : option (option Item);
}.

(** Code that reads and writes a state [S] and may throw; the state
    written before a throw stays written. *)
Definition St (S A : Type) : Type := S -> Outcome A * S.

#[global] Instance St_ret {S} : MRet (St S) := fun A a s => (Returned a, s).
#[global] Instance St_bind {S} : MBind (St S) := fun A B f m s =>
  match m s with
  | (Returned a, s') => f a s'
  | (Threw e, s') => (Threw e, s')
  end.

Definition throw {S A} (e : Exn) : St S A := fun s => (Threw e, s).
Definition get {S} : St S S := fun s => (Returned s, s).
Definition modify {S} (f : S -> S) : St S unit := fun s => (Returned tt, f s).
Definition lift {S A} (o : Outcome A) : St S A := fun s => (o, s).

(** [try { body } catch { handler }] *)
Definition tryCatch {S A} (body handler : St S A) : St S A := fun s =>
  match body s with
  | (Threw _, s') => handler s'
  | done => done
  end.

(** Field assignments. *)
Definition set_title (v : string) (d : Deck) : Deck :=
  mkDeck (deck_id d) v (description d) (createdAt d) (updatedAt d).
Definition set_description (v : option string) (d : Deck) : Deck :=
  mkDeck (deck_id d) (title d) v (createdAt d) (updatedAt d).
Definition set_updatedAt (v : string) (d : Deck) : Deck :=
  mkDeck (deck_id d) (title d) (description d) (createdAt d) v.
Definition set_front (v : string) (c : Card) : Card := mkCard (card_id c) v (back c).
Definition set_back (v : string) (c : Card) : Card := mkCard (card_id c) (front c) v.
Definition set_lastDeckId (v : option string) (s : Settings) : Settings :=
  mkSettings (defaultStudyMode s) (rememberLastDeck s) (reducedMotion s) v.
Definition set_decks (f : list Deck -> list Deck) (s : StoreState) : StoreState :=
  mkStore (f (decks s)) (cardsByDeck s) (settings s).
Definition set_cardsByDeck (f : gmap string (list Card) -> gmap string (list Card))
    (s : StoreState) : StoreState :=
  mkStore (decks s) (f (cardsByDeck s)) (settings s).
Definition set_settings (f : Settings -> Settings) (s : StoreState) : StoreState :=
  mkStore (decks s) (cardsByDeck s) (f (settings s)).
Definition set_inMemoryStore (v : StoreState) (w : World) : World :=
  mkWorld v (localStorage w).
Definition setItem (v : JValue) (w : World) : World :=
  mkWorld (inMemoryStore w) ((fun _ => Some (Document v)) <$> localStorage w).

(** [xs.findIndex(p)], [None] for [-1]; [xs.find(p)] is the item there. *)
Fixpoint findIndex {A} (p : A -> bool) (xs : list A) : option nat :=
  match xs with
  | [] => None
  | x :: rest => if p x then Some 0%nat else S <$> findIndex p rest
  end.

Definition cloneStore (store : StoreState) : StoreState :=
  mkStore ((fun deck : Deck => deck) <$> decks store)
          ((fun cards : list Card => (fun card : Card => card) <$> cards)
             <$> cardsByDeck store)
          (settings store).

(** [[...xs].sort(compare)]: the sort is stable; an item moves right past
    the items it compares greater than. *)
Fixpoint insertBy {A} (compare : A -> A -> Z) (x : A) (sorted : list A) : list A :=
  match sorted with
  | [] => [x]
  | y :: rest => if 0 <? compare x y then y :: insertBy compare x rest else x :: sorted
  end.

Definition sortBy {A} (compare : A -> A -> Z) (xs : list A) : list A :=
  foldr (insertBy compare) [] xs.

(** The inputs of the operations. *)
Record CreateDeckInput := mkCreateDeckInput {
  new_title : string;
  new_description : option string;
}.

(** [description] is missing ([None]), [null] ([Some None]) or a string. *)
Record UpdateDeckInput := mkUpdateDeckInput {
  upd_title : option string;
  upd_description : option (option string);
}.

Record CardInput := mkCardInput {
  new_front : string;
  new_back : string;
}.

Record UpdateCardInput := mkUpdateCardInput {
  upd_front : option string;
  upd_back : option string;
}.

(** The texts of [createSampleStore]. *)
Definition sampleCards1 : list (string * string) :=
  [("Breathing cadence", "Inhale 4, hold 4, exhale 6 to reset focus.");
   ("Posture cue", "Relax your shoulders and lengthen your spine.");
   ("Micro-break idea", "Stand, stretch, and sip water between review blocks.")].

Definition sampleCards2 : list (string * string) :=
  [("Philippians 4:13", "I can do all things through Christ who strengthens me.");
   ("Jeremiah 29:11", "For I know the plans I have for you, declares the Lord, plans for welfare and not for evil, to give you a future and a hope.");
   ("Romans 8:28", "And we know that for those who love God all things work together for good, for those who are called according to his purpose.");
   ("Psalm 23:1", "The Lord is my shepherd; I shall not want.");
   ("Isaiah 41:10", "Fear not, for I am with you; be not dismayed, for I am your God; I will strengthen you, I will help you, I will uphold you with my righteous right hand.");
   ("Proverbs 3:5-6", "Trust in the Lord with all your heart, and do not lean on your own understanding. In all your ways acknowledge him, and he will make straight your paths.");
   ("Matthew 11:28", "Come to me, all who labor and are heavy laden, and I will give you rest.");
   ("Joshua 1:9", "Be strong and courageous. Do not be frightened, and do not be dismayed, for the Lord your God is with you wherever you go.");
   ("Psalm 46:10", "Be still, and know that I am God. I will be exalted among the nations, I will be exalted in the earth!");
   ("1 Corinthians 13:4-5", "Love is patient and kind; love does not envy or boast; it is not arrogant or rude. It does not insist on its own way; it is not irritable or resentful.")].

(** Cards whose identifiers are the calls [first], [first + 1], ... of
    [generateId]. *)
Definition sampleCards (generateId : nat -> string) (first : nat)
    (texts : list (string * string)) : list Card :=
  imap (fun i text => mkCard (generateId (first + i)%nat) text.1 text.2) texts.

(** The store before the module has initialised it. *)
Definition uninitialised : StoreState := mkStore [] ∅ defaultSettings.

(** ** Import: [src/pages/ImportExport.tsx] *)

Definition quoteChar : ascii := ascii_of_nat 34.
Definition commaChar : ascii := ascii_of_nat 44.
Definition lfChar : ascii := ascii_of_nat 10.
Definition crChar : ascii := ascii_of_nat 13.

Definition isChar (a b : ascii) : bool := bool_decide (a = b).

(** [current += char] *)
Definition addChar (current : string) (char : ascii) : string :=
  current +:+ String char EmptyString.

(** The scanning loop of [parseCsv] and the flush that follows it.  [text]
    is what is left from [index] on; [index += 1] inside the body drops
    one more code unit. *)
Fixpoint scanCsv (text current : string) (row : list string)
    (rows : list (list string)) (inQuotes : bool) : list (list string) :=
  match text with
  | EmptyString =>
      if negb (isEmpty current) || negb (bool_decide (row = []))
      then rows ++ [row ++ [current]]
      else rows
  | String char rest =>
      if isChar char quoteChar then
        match rest with
        | String next rest' =>
            if inQuotes && isChar next quoteChar
            then scanCsv rest' (addChar current quoteChar) row rows inQuotes
            else scanCsv rest current row rows (negb inQuotes)
        | EmptyString => scanCsv rest current row rows (negb inQuotes)
        end
      else if isChar char commaChar && negb inQuotes then
        scanCsv rest EmptyString (row ++ [current]) rows inQuotes
      else if (isChar char lfChar || isChar char crChar) && negb inQuotes then
        match rest with
        | String next rest' =>
            if isChar char crChar && isChar next lfChar
            then scanCsv rest' EmptyString [] (rows ++ [row ++ [current]]) inQuotes
            else scanCsv rest EmptyString [] (rows ++ [row ++ [current]]) inQuotes
        | EmptyString => scanCsv rest EmptyString [] (rows ++ [row ++ [current]]) inQuotes
        end
      else scanCsv rest (addChar current char) row rows inQuotes
  end.

(** [toLowerCase] on the code units below 256. *)
Definition lowerChar (c : ascii) : ascii :=
  let n := N_of_ascii c in
  if ((65 <=? n) && (n <=? 90) || (192 <=? n) && (n <=? 222) && negb (n =? 215))%N
  then ascii_of_N (n + 32) else c.

Fixpoint toLowerCase (s : string) : string :=
  match s with
  | EmptyString => EmptyString
  | String c rest => String (lowerChar c) (toLowerCase rest)
  end.

(** [xs.indexOf(x)], [None] for [-1]. *)
Definition indexOf (xs : list string) (x : string) : option nat :=
  findIndex (fun y => bool_decide (y = x)) xs.

(** A [{ front, back }] pair of texts. *)
Record Sides := mkSides {
  side_front : string;
  side_back : string;
}.

Definition parseCsv (text : string) : Outcome (list Sides) :=
  let rows := scanCsv text EmptyString [] [] false in
  let nonEmptyRows :=
    List.filter (existsb (fun cell => (0 <? String.length (trim cell))%nat)) rows in
  match nonEmptyRows with
  | [] => Returned []
  | headerRow :: dataRows =>
      let headers := (fun value => toLowerCase (trim value)) <$> headerRow in
      match indexOf headers "front", indexOf headers "back" with
      | Some frontIndex, Some backIndex =>
          Returned ((fun cells => mkSides (default EmptyString (cells !! frontIndex))
                                          (default EmptyString (cells !! backIndex)))
                      <$> dataRows)
      | _, _ => Threw (Error "CSV must include 'front' and 'back' columns")
      end
  end.

Definition sanitizedCards (raw : list Sides) : list Sides :=
  List.filter (fun card => (0 <? String.length (side_front card))%nat
                           && (0 <? String.length (side_back card))%nat)
              ((fun card => mkSides (trim (side_front card)) (trim (side_back card))) <$> raw).

(** The output of [importJsonSchema]. *)
Record ImportDeck := mkImportDeck {
  imp_id : option string;
  imp_title : string;
  imp_description : option string;
}.

Record ImportCard := mkImportCard {
  imp_card_id : option string;
  imp_front : string;
  imp_back : string;
}.

Record ImportDocument := mkImportDocument {
  imp_deck : ImportDeck;
  imp_cards : list ImportCard;
}.

Definition importDeckSchema (v : JValue) : Parse ImportDeck :=
  zTransform
    (fun value =>
       mkImportDeck (imp_id value) (trim (imp_title value))
                    (match trim <$> imp_description value with
                     | Some EmptyString => None
                     | trimmed => trimmed
                     end))
    (match v with
     | JObject o =>
         pap (pap (pmap mkImportDeck
                    (zOptional zString (getField o "id")))
                    (zMin 1 (Some "Deck title is required") (zString (getField o "title"))))
             (zOptional zString (getField o "description"))
     | _ => aborted (invalid_type "object")
     end).

Definition importCardSchema (v : JValue) : Parse ImportCard :=
  match v with
  | JObject o =>
      pap (pap (pmap mkImportCard
                 (zOptional zString (getField o "id")))
                 (zString (getField o "front")))
          (zString (getField o "back"))
  | _ => aborted (invalid_type "object")
  end.

Definition importJsonSchema (v : JValue) : Parse ImportDocument :=
  match v with
  | JObject o =>
      pap (pmap mkImportDocument (importDeckSchema (getField o "deck")))
          (zMinItems 1 (Some "At least one card is required")
                     (zArray importCardSchema (getField o "cards")))
  | _ => aborted (invalid_type "object")
  end.

Inductive ImportSource := json | csv.

Record ImportPreview := mkImportPreview {
  deckTitle : string;
  deckDescription : option string;
  cards : list Sides;
  source : ImportSource;
  filename : string;
}.

Definition DEFAULT_DECK_TITLE : string := "Imported deck".

(** [parseJson]: [document] is what [JSON.parse(text)] gives, the result is
    the preview handed to [setPreview]. *)
Definition parseJson (document : Outcome JValue) (filename : string)
  : Outcome ImportPreview :=
  raw ← document;
  parsed ← parse (importJsonSchema raw);
  let cards := sanitizedCards
                 ((fun card => mkSides (imp_front card) (imp_back card)) <$> imp_cards parsed) in
  if bool_decide (cards = [])
  then Threw (Error "No cards with valid front/back content were found")
  else Returned (mkImportPreview
                   (if isEmpty (imp_title (imp_deck parsed)) then DEFAULT_DECK_TITLE
                    else imp_title (imp_deck parsed))
                   (imp_description (imp_deck parsed))
                   cards json filename).

(** [filename.replace(/\.[^/.]+$/, empty)]: a last extension, of code units
    other than [/] and [.], is cut off with its dot. *)
Definition dotChar : ascii := ascii_of_nat 46.
Definition slashChar : ascii := ascii_of_nat 47.

Fixpoint extensionEnd (reversed extension : list ascii) : option (list ascii) :=
  match reversed with
  | [] => None
  | c :: rest =>
      if isChar c dotChar then (if bool_decide (extension = []) then None else Some rest)
      else if isChar c slashChar then None
      else extensionEnd rest (c :: extension)
  end.

Definition withoutExtension (filename : string) : string :=
  match extensionEnd (reverse (list_ascii_of_string filename)) [] with
  | Some stem => string_of_list_ascii (reverse stem)
  | None => filename
  end.

(** [parseCsvFile]: the result is the preview handed to [setPreview]. *)
Definition parseCsvFile (text filename : string) : Outcome ImportPreview :=
  rows ← parseCsv text;
  let cards := sanitizedCards rows in
  if bool_decide (cards = [])
  then Threw (Error "No cards found in CSV file")
  else
    let stem := withoutExtension filename in
    let fallbackTitle := if isEmpty stem then DEFAULT_DECK_TITLE else stem in
    Returned (mkImportPreview fallbackTitle None cards csv filename).

(** What each field of the settings reads as, [None] where the field
    does not hold a value of its type. *)
Definition studyModeOf (v : JValue) : option StudyMode :=
  match v with
  | JString s =>
      if decide (s = "ordered") then Some ordered
      else if decide (s = "shuffle") then Some shuffle else None
  | _ => None
  end.

Definition booleanOf (v : JValue) : option bool :=
  match v with JBool b => Some b | _ => None end.

Definition lastDeckIdOf (v : JValue) : option (option string) :=
  match v with
  | JUndefined | JNull => Some None
  | JString s => Some (Some s)
  | _ => None
  end.

(** The cards an import keeps, in the words of the specification: the
    cards with a blank front or back dropped, the others trimmed. *)
Definition keptCards (cs : list ImportCard) : list Sides :=
  (fun c => mkSides (trim (imp_front c)) (trim (imp_back c)))
    <$> filter (fun c => trim (imp_front c) <> EmptyString
                         /\ trim (imp_back c) <> EmptyString) cs.

(** ** A runtime to compute with

    [Date] restricted to the one format [toISOString] writes,
    [YYYY-MM-DDTHH:mm:ss.sssZ], and [localeCompare] as the comparison of
    code units. *)
Module Runtime.

Definition msPerDay : Z := 86400000.

(** Days since 1970-01-01 of a civil date. *)
Definition daysFromCivil (y m d : Z) : Z :=
  let y := if m <=? 2 then y - 1 else y in
  let era := y / 400 in
  let yoe := y - era * 400 in
  let doy := (153 * (if 2 <? m then m - 3 else m + 9) + 2) / 5 + d - 1 in
  let doe := yoe * 365 + yoe / 4 - yoe / 100 + doy in
  era * 146097 + doe - 719468.

(** The civil date of a day number. *)
Definition civilFromDays (z : Z) : Z * Z * Z :=
  let z := z + 719468 in
  let era := z / 146097 in
  let doe := z - era * 146097 in
  let yoe := (doe - doe / 1460 + doe / 36524 - doe / 146096) / 365 in
  let doy := doe - (365 * yoe + yoe / 4 - yoe / 100) in
  let mp := (5 * doy + 2) / 153 in
  let d := doy - (153 * mp + 2) / 5 + 1 in
  let m := if mp <? 10 then mp + 3 else mp - 9 in
  (yoe + era * 400 + (if m <=? 2 then 1 else 0), m, d).

Definition daysInMonth (y m : Z) : Z :=
  if m =? 2 then
    if ((y mod 4 =? 0) && negb (y mod 100 =? 0)) || (y mod 400 =? 0) then 29 else 28
  else if (m =? 4) || (m =? 6) || (m =? 9) || (m =? 11) then 30 else 31.

Definition digit (n : Z) : ascii := ascii_of_N (48 + Z.to_N (n mod 10)).

(** [n] in [width] decimal digits. *)
Fixpoint digits (width : nat) (n : Z) : string :=
  match width with
  | O => EmptyString
  | S w => digits w (n / 10) +:+ String (digit n) EmptyString
  end.

Definition toISOString (t : Z) : string :=
  let '(y, m, d) := civilFromDays (t / msPerDay) in
  let ms := t mod msPerDay in
  (if (0 <=? y) && (y <=? 9999) then digits 4 y
   else (if y <? 0 then "-" else "+") +:+ digits 6 (Z.abs y))
  +:+ "-" +:+ digits 2 m +:+ "-" +:+ digits 2 d
  +:+ "T" +:+ digits 2 (ms / 3600000) +:+ ":" +:+ digits 2 (ms / 60000 mod 60)
  +:+ ":" +:+ digits 2 (ms / 1000 mod 60) +:+ "." +:+ digits 3 (ms mod 1000) +:+ "Z".

(** The number a run of decimal digits writes. *)
Fixpoint number (acc : Z) (s : string) : option Z :=
  match s with
  | EmptyString => Some acc
  | String c rest =>
      let n := Z.of_N (N_of_ascii c) in
      if (48 <=? n) && (n <=? 57) then number (acc * 10 + (n - 48)) rest else None
  end.

Definition field (s : string) (start len : nat) : option Z :=
  number 0 (substring start len s).

Definition parseDate (s : string) : option Z :=
  if bool_decide (String.length s = 24%nat
                  ∧ substring 4 1 s = "-" ∧ substring 7 1 s = "-"
                  ∧ substring 10 1 s = "T" ∧ substring 13 1 s = ":"
                  ∧ substring 16 1 s = ":" ∧ substring 19 1 s = "."
                  ∧ substring 23 1 s = "Z")
  then
    y ← field s 0 4; m ← field s 5 2; d ← field s 8 2;
    h ← field s 11 2; mi ← field s 14 2; sec ← field s 17 2; ms ← field s 20 3;
    if (1 <=? m) && (m <=? 12) && (1 <=? d) && (d <=? daysInMonth y m)
       && (h <=? 23) && (mi <=? 59) && (sec <=? 59)
    then Some (daysFromCivil y m d * msPerDay
               + h * 3600000 + mi * 60000 + sec * 1000 + ms)
    else None
  else None.

Definition localeCompare (a b : string) : Z :=
  match String.compare a b with
  | Lt => -1
  | Eq => 0
  | Gt => 1
  end.

End Runtime.

(** ** Examples to compute with *)
Module Example.

Definition timestamp : string := "2024-01-01T00:00:00.000Z".

Definition deck : Deck :=
  mkDeck "deck-existing" "Existing Deck" (Some "Original description")
         timestamp timestamp.

Definition card : Card := mkCard "card-1" "Breath count" "4-7-8".

(** A store at rest, as the tests of the repository save it. *)
Definition store : StoreState :=
  mkStore [deck] {["deck-existing" := [card]]}
          (mkSettings ordered true false (Some "deck-existing")).

Definition world : World := mkWorld store (Some None).

(** [baseStore()] of the tests of the store. *)
Definition baseStore : StoreState :=
  mkStore [deck] {["deck-existing" := []]} (mkSettings ordered false false None).

(** A draft before normalisation: texts to trim, a timestamp to
    reformat, cards of a deck that is gone, a last deck not remembered. *)
Definition draft : StoreState :=
  mkStore [mkDeck "d1" "  Calm Flow  " (Some "   ") timestamp timestamp]
          (<["gone" := [card]]> {["d1" := [mkCard "c1" " front " "back  "]]})
          (mkSettings shuffle false true (Some "d1")).

(** 2025-01-01T00:00:00.000Z *)
Definition now : Z := 1735689600000.

Definition generateId (n : nat) : string :=
  "id-" +:+ String (ascii_of_nat (97 + n)) EmptyString.


(** A document that passes the schema and holds no deck. *)
Definition emptyDocument : JValue :=
  JObject [("decks", JArray []); ("cardsByDeck", JObject [])].

Definition quote : string := String quoteChar EmptyString.
Definition newline : string := String lfChar EmptyString.

(** The CSV text of the import test. *)
Definition phrases : string :=
  "front,back" +:+ newline
  +:+ quote +:+ "Greeting, friendly" +:+ quote +:+ ","
  +:+ quote +:+ "Hello, " +:+ quote +:+ quote +:+ "friend" +:+ quote +:+ quote
  +:+ "!" +:+ quote +:+ newline
  +:+ "Affirmation,You are capable".

(** An import file whose only card has a blank front. *)
Definition blankImport : JValue :=
  JObject [("deck", JObject [("title", JString "Evening Routine")]);
           ("cards", JArray [JObject [("front", JString "  ");
                                      ("back", JString "4-7-8")]])].

(** An import file with one card to drop and two to keep. *)
Definition mixedImport : JValue :=
  JObject [("deck", JObject [("id", JString "evening");
                             ("title", JString "Evening Routine");
                             ("description", JString "Wind down focus")]);
           ("cards", JArray [JObject [("id", JString "1");
                                      ("front", JString " Breath count ");
                                      ("back", JString "4-7-8")];
                             JObject [("front", JString "Reflection");
                                      ("back", JString "   ")];
                             JObject [("id", JString "3");
                                      ("front", JString "Reflection");
                                      ("back", JString "Note a calming highlight")]])].

(** Settings whose [lastDeckId] is a number. *)
Definition numberedSettings : JValue := JObject [("lastDeckId", JNumber 42)].






End Example.

Section Store.

(** [Date.parse]: [None] stands for [NaN]. *)
Variable parseDate : string -> option Z.
(** [Date.prototype.toISOString] on a valid time value. *)
Variable toISOString : Z -> string.
(** [String.prototype.localeCompare] *)
Variable localeCompare : string -> string -> Z.

(** [new Date(ts).toISOString()] *)
Definition reformat (ts : string) : Outcome string :=
  match parseDate ts with
  | Some t => Returned (toISOString t)
  | None => Threw (RangeError "Invalid time value")
  end.

Definition normalizeDeck (deck : Deck) : Outcome Deck :=
  created ← reformat (createdAt deck);
  updated ← reformat (updatedAt deck);
  mret (mkDeck (deck_id deck) (trim (title deck))
               (d ← description deck; orUndefined (trim d))
               created updated).

(** The loop of [normalizeStore] that rebuilds [cardsByDeck]: [ds] are
    the decks still to visit, [built] is the object so far. *)
Fixpoint rebuildCards (source : gmap string (list Card)) (ds : list Deck)
    (built : gmap string (list Card)) : Outcome (gmap string (list Card)) :=
  match ds with
  | [] => Returned built
  | deck :: rest =>
      cards ← arrayAt source (deck_id deck);
      rebuildCards source rest (<[deck_id deck := trimCard <$> cards]> built)
  end.

(** [normalizeStore] on the fields of its argument; [settings] is [None]
    for a validated store that has none. *)
Definition normalizeStoreOf (ds : list Deck) (cs : gmap string (list Card))
    (st : option Settings) : Outcome StoreState :=
  ds' ← mapOutcome normalizeDeck ds;
  cs' ← rebuildCards cs ds' ∅;
  mret (mkStore ds' cs' (normalizeSettings (asPartial <$> st))).

Definition normalizeStore (store : StoreState) : Outcome StoreState :=
  normalizeStoreOf (decks store) (cardsByDeck store) (Some (settings store)).

(** *** The schemas that look at dates *)

Definition isoDateString (v : JValue) : Parse string :=
  zRefine (fun value => bool_decide (is_Some (parseDate value)))
          "Expected ISO 8601 date string"
          (zMin 1 None (zString v)).

Definition deckSchema (v : JValue) : Parse Deck :=
  match v with
  | JObject o =>
      pap (pap (pap (pap (pmap mkDeck
                 (zMin 1 None (zString (getField o "id"))))
                 (zMin 1 None (zString (getField o "title"))))
                 (zTransform cleanDescription (zOptional zString (getField o "description"))))
                 (isoDateString (getField o "createdAt")))
          (isoDateString (getField o "updatedAt"))
  | _ => aborted (invalid_type "object")
  end.

Definition storeShape (v : JValue) : Parse ValidStore :=
  match v with
  | JObject o =>
      pap (pap (pmap mkValid
                 (zArray deckSchema (getField o "decks")))
                 (zRecord (zArray cardSchema) (getField o "cardsByDeck")))
          (zOptional settingsSchema (getField o "settings"))
  | _ => aborted (invalid_type "object")
  end.

Definition storeSchema (v : JValue) : Parse ValidStore :=
  zSuperRefine missingCards (storeShape v).

(** *** Seeding, persistence, hydration *)

(** [now] is the instant [new Date()] reads, [generateId n] the result of
    the call number [n] of [generateId]. *)
Definition createSampleStore (now : Z) (generateId : nat -> string) : StoreState :=
  let now := toISOString now in
  let deckId1 := generateId 0%nat in
  let deckId2 := generateId 1%nat in
  mkStore
    [mkDeck deckId1 "Mindful Moments"
            (Some "Quick grounding prompts for serene study sessions.") now now;
     mkDeck deckId2 "Bible Verses"
            (Some "Scripture references and verses for meditation and study.") now now]
    (<[deckId2 := sampleCards generateId 5 sampleCards2]>
       (<[deckId1 := sampleCards generateId 2 sampleCards1]> ∅))
    defaultSettings.

Definition persist (store : StoreState) : St World unit :=
  w ← get;
  match localStorage w with
  | None => mret tt
  | Some _ =>
      validated ← lift (parse (storeSchema (storeJS store)));
      modify (setItem (toJSON (validJS validated)))
  end.

Definition seed (now : Z) (generateId : nat -> string) : St World StoreState :=
  sample ← lift (normalizeStore (createSampleStore now generateId));
  persist sample;;
  mret sample.

Definition hydrateFromStorage (now : Z) (generateId : nat -> string)
  : St World StoreState :=
  w ← get;
  match localStorage w with
  | None => lift (normalizeStore (createSampleStore now generateId))
  | Some None => seed now generateId
  | Some (Some raw) =>
      tryCatch
        (json ← lift (match raw with
                      | Document v => Returned v
                      | Garbled => Threw SyntaxError
                      end);
         parsed ← lift (parse (storeSchema json));
         if decide (List.length (v_decks parsed) = 0%nat)
         then throw (Error "Empty store")
         else
           normalized ← lift (normalizeStoreOf (v_decks parsed) (v_cardsByDeck parsed)
                                (Some (default defaultSettings (v_settings parsed))));
           persist normalized;;
           mret normalized)
        (seed now generateId)
  end.

Definition loadStore (w : World) : StoreState := cloneStore (inMemoryStore w).

Definition snapshot : St World StoreState := w ← get; mret (loadStore w).

Definition rehydrateInMemory (now : Z) (generateId : nat -> string)
  : St World StoreState :=
  hydrated ← hydrateFromStorage now generateId;
  modify (set_inMemoryStore (cloneStore hydrated));;
  snapshot.

(** The initialisation of the module: [inMemoryStore] is hydrated from
    whatever [localStorage] holds. *)
Definition initialise (storage : option (option Item)) (now : Z)
    (generateId : nat -> string) : Outcome StoreState * World :=
  rehydrateInMemory now generateId (mkWorld uninitialised storage).

Definition saveStore (store : StoreState) : St World unit :=
  normalized ← lift (normalizeStore store);
  modify (set_inMemoryStore (cloneStore normalized));;
  persist normalized.

(** The mutator runs on a private draft; what it wrote there is dropped
    when it throws. *)
Definition onDraft {T} (mutator : St StoreState T) (draft : StoreState)
  : St World (T * StoreState) :=
  lift (match mutator draft with
        | (Returned result, draft') => Returned (result, draft')
        | (Threw e, _) => Threw e
        end).

Definition mutateStore {T} (mutator : St StoreState T) : St World (StoreState * T) :=
  draft ← snapshot;
  mutated ← onDraft mutator draft;
  normalized ← lift (normalizeStore mutated.2);
  modify (set_inMemoryStore (cloneStore normalized));;
  persist normalized;;
  store ← snapshot;
  mret (store, mutated.1).

(** *** Queries *)

Definition listDecks (w : World) : list Deck :=
  sortBy (fun a b => localeCompare (updatedAt b) (updatedAt a)) (decks (loadStore w)).

Definition getDeck (w : World) (deckId : string) : option Deck :=
  i ← findIndex (fun item => bool_decide (deck_id item = deckId)) (decks (loadStore w));
  decks (loadStore w) !! i.

Definition listCards (w : World) (deckId : string) : Outcome (list Card) :=
  cards ← arrayAt (cardsByDeck (loadStore w)) deckId;
  Returned ((fun card : Card => card) <$> (cards : list Card)).

(** *** Operations *)

Definition hasId (deckId : string) (item : Deck) : bool :=
  bool_decide (deck_id item = deckId).
Definition hasCardId (cardId : string) (item : Card) : bool :=
  bool_decide (card_id item = cardId).

(** Assignments through [deck], the item of [draft.decks] at [i], and
    through [card], the item at [j] of the cards of [deckId]. *)
Definition assignDeck (i : nat) (f : Deck -> Deck) : St StoreState unit :=
  modify (set_decks (alter f i)).
Definition assignCard (deckId : string) (j : nat) (f : Card -> Card) : St StoreState unit :=
  modify (set_cardsByDeck (alter (alter f j) deckId)).

Definition deckNotFound {A} (deckId : string) : St StoreState A :=
  throw (Error ("Deck " +:+ deckId +:+ " not found")).
Definition cardNotFound {A} (deckId cardId : string) : St StoreState A :=
  throw (Error ("Card " +:+ cardId +:+ " not found in deck " +:+ deckId)).

(** The callback each operation hands to [mutateStore] comes first, under
    the name of the operation.  Where a callback returns [deck] or
    [card], the object it found and assigned through, the model reads the
    item back at its index; the item is there, and the other case of
    that last [match] is never taken. *)

Definition createDeck_mutator (now newId trimmedTitle : string)
    (input : CreateDeckInput) : St StoreState Deck :=
  let deck := mkDeck newId trimmedTitle
                     (d ← new_description input; orUndefined (trim d)) now now in
  modify (set_decks (fun ds => ds ++ [deck]));;
  modify (set_cardsByDeck (insert (deck_id deck) []));;
  mret deck.

Definition createDeck (now : Z) (newId : string) (input : CreateDeckInput)
  : St World (Deck * StoreState) :=
  let trimmedTitle := trim (new_title input) in
  if isEmpty trimmedTitle then throw (Error "Deck title is required") else
  let now := toISOString now in
  outcome ← mutateStore (createDeck_mutator now newId trimmedTitle input);
  mret (outcome.2, outcome.1).

Definition updateDeck_mutator (now deckId : string) (changes : UpdateDeckInput)
  : St StoreState Deck :=
  draft ← get;
  match findIndex (hasId deckId) (decks draft) with
  | None => deckNotFound deckId
  | Some i =>
      match upd_title changes with
      | Some t =>
          let trimmed := trim t in
          if isEmpty trimmed then throw (Error "Deck title cannot be empty")
          else assignDeck i (set_title trimmed)
      | None => mret tt
      end;;
      match upd_description changes with
      | Some (Some d) => assignDeck i (set_description (orUndefined (trim d)))
      | Some None => assignDeck i (set_description None)
      | None => mret tt
      end;;
      assignDeck i (set_updatedAt now);;
      draft ← get;
      match decks draft !! i with
      | Some deck => mret deck
      | None => deckNotFound deckId
      end
  end.

Definition updateDeck (now : Z) (deckId : string) (changes : UpdateDeckInput)
  : St World (Deck * StoreState) :=
  let now := toISOString now in
  outcome ← mutateStore (updateDeck_mutator now deckId changes);
  mret (outcome.2, outcome.1).

Definition deleteDeck_mutator (deckId : string) : St StoreState unit :=
  draft ← get;
  match findIndex (hasId deckId) (decks draft) with
  | None => deckNotFound deckId
  | Some deckIndex =>
      modify (set_decks (delete deckIndex));;
      modify (set_cardsByDeck (delete deckId));;
      draft ← get;
      if decide (lastDeckId (settings draft) = Some deckId)
      then modify (set_settings (set_lastDeckId None))
      else mret tt
  end.

Definition deleteDeck (deckId : string) : St World StoreState :=
  outcome ← mutateStore (deleteDeck_mutator deckId);
  mret outcome.1.

Definition addCard_mutator (now newId deckId trimmedFront trimmedBack : string)
  : St StoreState Card :=
  draft ← get;
  match findIndex (hasId deckId) (decks draft) with
  | None => deckNotFound deckId
  | Some i =>
      let card := mkCard newId trimmedFront trimmedBack in
      cards ← lift (arrayAt (cardsByDeck draft) deckId);
      modify (set_cardsByDeck (insert deckId (cards ++ [card])));;
      assignDeck i (set_updatedAt now);;
      mret card
  end.

Definition addCard (now : Z) (newId : string) (deckId : string) (input : CardInput)
  : St World (Card * StoreState) :=
  let trimmedFront := trim (new_front input) in
  let trimmedBack := trim (new_back input) in
  if isEmpty trimmedFront || isEmpty trimmedBack
  then throw (Error "Card front and back are required") else
  let now := toISOString now in
  outcome ← mutateStore (addCard_mutator now newId deckId trimmedFront trimmedBack);
  mret (outcome.2, outcome.1).

Definition updateCard_mutator (now deckId cardId : string) (changes : UpdateCardInput)
  : St StoreState Card :=
  draft ← get;
  match findIndex (hasId deckId) (decks draft) with
  | None => deckNotFound deckId
  | Some i =>
      cards ← lift (arrayAt (cardsByDeck draft) deckId);
      match findIndex (hasCardId cardId) cards with
      | None => cardNotFound deckId cardId
      | Some j =>
          match upd_front changes with
          | Some text =>
              let trimmed := trim text in
              if isEmpty trimmed then throw (Error "Card front cannot be empty")
              else assignCard deckId j (set_front trimmed)
          | None => mret tt
          end;;
          match upd_back changes with
          | Some text =>
              let trimmed := trim text in
              if isEmpty trimmed then throw (Error "Card back cannot be empty")
              else assignCard deckId j (set_back trimmed)
          | None => mret tt
          end;;
          assignDeck i (set_updatedAt now);;
          draft ← get;
          match default [] (cardsByDeck draft !! deckId) !! j with
          | Some card => mret card
          | None => cardNotFound deckId cardId
          end
      end
  end.

Definition updateCard (now : Z) (deckId cardId : string) (changes : UpdateCardInput)
  : St World (Card * StoreState) :=
  let now := toISOString now in
  outcome ← mutateStore (updateCard_mutator now deckId cardId changes);
  mret (outcome.2, outcome.1).

Definition deleteCard_mutator (now deckId cardId : string) : St StoreState unit :=
  draft ← get;
  match findIndex (hasId deckId) (decks draft) with
  | None => deckNotFound deckId
  | Some i =>
      cards ← lift (arrayAt (cardsByDeck draft) deckId);
      match findIndex (hasCardId cardId) cards with
      | None => cardNotFound deckId cardId
      | Some index =>
          modify (set_cardsByDeck (insert deckId (delete index cards)));;
          assignDeck i (set_updatedAt now)
      end
  end.

Definition deleteCard (now : Z) (deckId cardId : string) : St World StoreState :=
  let now := toISOString now in
  outcome ← mutateStore (deleteCard_mutator now deckId cardId);
  mret outcome.1.

Definition updateSettings_mutator (changes : PartialSettings) : St StoreState Settings :=
  draft ← get;
  let next := normalizeSettings (Some (spread (asPartial (settings draft)) changes)) in
  let next := if rememberLastDeck next then next else set_lastDeckId None next in
  modify (set_settings (fun _ => next));;
  mret next.

Definition updateSettings (changes : PartialSettings) : St World (Settings * StoreState) :=
  outcome ← mutateStore (updateSettings_mutator changes);
  mret (outcome.2, outcome.1).

Definition setLastDeckId_mutator (deckId : option string) : St StoreState unit :=
  draft ← get;
  if rememberLastDeck (settings draft)
  then modify (set_settings (set_lastDeckId deckId))
  else modify (set_settings (set_lastDeckId None)).

Definition setLastDeckId (deckId : option string) : St World StoreState :=
  outcome ← mutateStore (setLastDeckId_mutator deckId);
  mret outcome.1.

(** *** What the properties speak of *)

(** [cardsByDeck[key] ?? []] is an array: an own entry, or nothing at
    all where the key names no property that objects inherit. *)
Definition readable (cs : gmap string (list Card)) (key : string) : Prop :=
  is_Some (cs !! key) \/ inherited key = false.

(** What the loop of [normalizeStore] builds where it reads an array for
    every deck. *)
Definition rebuilt (source : gmap string (list Card)) (ds : list Deck)
  : gmap string (list Card) :=
  foldl (fun acc deck =>
           <[deck_id deck := trimCard <$> default [] (source !! deck_id deck)]> acc)
        ∅ ds.

(** The invariant of the settings: no remembered deck unless remembering
    is on. *)
Definition settingsInvariant (st : Settings) : Prop :=
  rememberLastDeck st = false -> lastDeckId st = None.

(** A timestamp the runtime reads, and reads again as the same instant
    once it has printed it. *)
Definition settles (ts : string) : Prop :=
  exists t, parseDate ts = Some t /\ parseDate (toISOString t) = Some t.

Definition settledDeck (deck : Deck) : Prop :=
  settles (createdAt deck) /\ settles (updatedAt deck).

(** What [normalizeDeck] returns is a fixed point of it. *)
Definition normalDeck (deck : Deck) : Prop := normalizeDeck deck = Returned deck.

(** What [deckSchema] makes of a deck: its description cleaned. *)
Definition cleanDeck (deck : Deck) : Deck :=
  set_description (cleanDescription (description deck)) deck.

(** What [storeSchema] makes of a store. *)
Definition validated (store : StoreState) : ValidStore :=
  mkValid (cleanDeck <$> decks store) (cardsByDeck store) (Some (settings store)).

Definition validDeck (deck : Deck) : Prop :=
  deck_id deck <> EmptyString /\ title deck <> EmptyString
  /\ createdAt deck <> EmptyString /\ is_Some (parseDate (createdAt deck))
  /\ updatedAt deck <> EmptyString /\ is_Some (parseDate (updatedAt deck)).

Definition validCard (card : Card) : Prop :=
  card_id card <> EmptyString /\ front card <> EmptyString /\ back card <> EmptyString.

Definition validStore (store : StoreState) : Prop :=
  Forall validDeck (decks store)
  /\ map_Forall (fun _ cards => Forall validCard cards) (cardsByDeck store)
  /\ Forall (fun deck => is_Some (cardsByDeck store !! deck_id deck)) (decks store).

(** The six mutations of decks and cards. *)
Inductive Mutation :=
  | CreateDeck (now : Z) (newId : string) (input : CreateDeckInput)
  | UpdateDeck (now : Z) (deckId : string) (changes : UpdateDeckInput)
  | DeleteDeck (deckId : string)
  | AddCard (now : Z) (newId : string) (deckId : string) (input : CardInput)
  | UpdateCard (now : Z) (deckId cardId : string) (changes : UpdateCardInput)
  | DeleteCard (now : Z) (deckId cardId : string).

(** A mutation run for the store it returns. *)
Definition perform (m : Mutation) : St World StoreState :=
  match m with
  | CreateDeck now newId input => r ← createDeck now newId input; mret r.2
  | UpdateDeck now deckId changes => r ← updateDeck now deckId changes; mret r.2
  | DeleteDeck deckId => deleteDeck deckId
  | AddCard now newId deckId input => r ← addCard now newId deckId input; mret r.2
  | UpdateCard now deckId cardId changes =>
      r ← updateCard now deckId cardId changes; mret r.2
  | DeleteCard now deckId cardId => deleteCard now deckId cardId
  end.

Definition blank (text : string) : Prop := trim text = EmptyString.

Definition knownDeck (w : World) (deckId : string) : Prop :=
  deckId ∈ deck_id <$> decks (inMemoryStore w).

Definition knownCard (w : World) (deckId cardId : string) : Prop :=
  cardId ∈ card_id <$> default [] (cardsByDeck (inMemoryStore w) !! deckId).

(** The inputs a mutation refuses: a required text blank after trimming,
    a deck or a card that is not there.  A card is looked for, and its
    texts are looked at, once the cards of the deck are read. *)
Definition rejected (m : Mutation) (w : World) : Prop :=
  match m with
  | CreateDeck _ _ input => blank (new_title input)
  | UpdateDeck _ deckId changes =>
      ¬ knownDeck w deckId \/ exists t, upd_title changes = Some t /\ blank t
  | DeleteDeck deckId => ¬ knownDeck w deckId
  | AddCard _ _ deckId input =>
      blank (new_front input) \/ blank (new_back input) \/ ¬ knownDeck w deckId
  | UpdateCard _ deckId cardId changes =>
      ¬ knownDeck w deckId
      \/ readable (cardsByDeck (inMemoryStore w)) deckId
         /\ (¬ knownCard w deckId cardId
             \/ (exists t, upd_front changes = Some t /\ blank t)
             \/ (exists t, upd_back changes = Some t /\ blank t))
  | DeleteCard _ deckId cardId =>
      ¬ knownDeck w deckId
      \/ readable (cardsByDeck (inMemoryStore w)) deckId /\ ¬ knownCard w deckId cardId
  end.

Ltac run_St :=
  rewrite /assignDeck /assignCard /deckNotFound /cardNotFound /throw /modify /get /lift
          /mbind /St_bind /mret /St_ret /=.

(** A store [normalizeStore] returns unchanged, as [inMemoryStore] is
    after hydration or a mutation. *)
Definition normalStore (store : StoreState) : Prop :=
  normalizeStore store = Returned store.

(** The state between two operations: the store is normalised and passes
    the schema. *)
Definition steady (w : World) : Prop :=
  normalStore (inMemoryStore w) /\ validStore (inMemoryStore w).

(** The instant [now] prints to a text the runtime reads back. *)
Definition printable (now : Z) : Prop :=
  toISOString now <> EmptyString /\ parseDate (toISOString now) = Some now.

(** The state a successful mutation leaves: the normalised store in
    memory and, where there is a storage, its document there. *)
Definition commit (normalized : StoreState) (w : World) : World :=
  mkWorld normalized
          ((fun _ => Some (Document (toJSON (validJS (validated normalized)))))
             <$> localStorage w).

(** The deck [createDeck] makes. *)
Definition created (now : Z) (newId : string) (input : CreateDeckInput) : Deck :=
  mkDeck newId (trim (new_title input))
         (d ← new_description input; orUndefined (trim d))
         (toISOString now) (toISOString now).

Definition titled (text : string) (ds : list Deck) : list Deck :=
  filter (fun deck => title deck = text) ds.



(** Every operation that writes the store. *)
Inductive Operation :=
  | Mutate (m : Mutation)
  | UpdateSettings (changes : PartialSettings)
  | SetLastDeckId (deckId : option string)
  | SaveStore (store : StoreState)
  | Refresh (now : Z) (generateId : nat -> string).

Definition execute (op : Operation) : St World unit :=
  match op with
  | Mutate m => perform m;; mret tt
  | UpdateSettings changes => updateSettings changes;; mret tt
  | SetLastDeckId deckId => setLastDeckId deckId;; mret tt
  | SaveStore store => saveStore store
  | Refresh now generateId => rehydrateInMemory now generateId;; mret tt
  end.

(** [updateSettings({ rememberLastDeck: false })] *)
Definition stopRemembering : PartialSettings :=
  mkPartial None (Some (Some false)) None None.

Definition invariant (w : World) : Prop :=
  settingsInvariant (settings (inMemoryStore w)).

(** The settings [updateSettings] writes to the draft. *)
Definition updatedSettings (changes : PartialSettings) (st : Settings) : Settings :=
  let next := normalizeSettings (Some (spread (asPartial st) changes)) in
  if rememberLastDeck next then next else set_lastDeckId None next.

(** The store [seed] returns: the sample, its cards rebuilt per deck. *)
Definition seeded (now : Z) (generateId : nat -> string) : StoreState :=
  mkStore (decks (createSampleStore now generateId))
          (rebuilt (cardsByDeck (createSampleStore now generateId))
                   (decks (createSampleStore now generateId)))
          defaultSettings.

(** Deck identifiers are distinct, as the data model has them. *)
Definition distinct (w : World) : Prop :=
  NoDup (deck_id <$> decks (inMemoryStore w)).

(** The identifier a mutation draws names no deck yet. *)
Definition fresh (m : Mutation) (w : World) : Prop :=
  match m with
  | CreateDeck _ newId _ => ¬ knownDeck w newId
  | _ => True
  end.

(** ** Properties *)

(** *** Text *)

Lemma trimEnd_idem s : trimEnd (trimEnd s) = trimEnd s.
Proof.
  induction s as [|c s IH]; [done|]. simpl.
  destruct (trimEnd s) as [|c' s'] eqn:E.
  - destruct (isWhiteSpace c) eqn:W; [done|]. simpl. by rewrite W.
  - simpl in IH |- *. by rewrite IH.
Qed.

Lemma trimEnd_head c s :
  isWhiteSpace c = false -> exists rest, trimEnd (String c s) = String c rest.
Proof.
  intros W. simpl. destruct (trimEnd s); rewrite ?W; eauto.
Qed.

Lemma trimStart_head s :
  trimStart s = EmptyString \/
  exists c rest, trimStart s = String c rest /\ isWhiteSpace c = false.
Proof.
  induction s as [|c s IH]; [by left|]. simpl.
  destruct (isWhiteSpace c) eqn:W; [done|]. right. eauto.
Qed.

Lemma trimStart_trim s : trimStart (trim s) = trim s.
Proof.
  unfold trim. destruct (trimStart_head s) as [->|(c & rest & -> & W)]; [done|].
  destruct (trimEnd_head c rest W) as [kept ->]. simpl. by rewrite W.
Qed.

Lemma trim_idem s : trim (trim s) = trim s.
Proof.
  unfold trim at 1. rewrite trimStart_trim. unfold trim. apply trimEnd_idem.
Qed.

Lemma isEmpty_true s : isEmpty s = true <-> s = EmptyString.
Proof. by destruct s. Qed.

Lemma isEmpty_length s : isEmpty s = negb (0 <? String.length s)%nat.
Proof. by destruct s. Qed.

Lemma orUndefined_Some s r : orUndefined s = Some r -> r = s /\ isEmpty s = false.
Proof. unfold orUndefined. destruct (isEmpty s); [done|]. by intros [= ->]. Qed.

Lemma trimmed_description_idem (d : option string) :
  (x ← (y ← d; orUndefined (trim y)); orUndefined (trim x)) = (y ← d; orUndefined (trim y)).
Proof.
  destruct d as [y|]; [|done]. simpl.
  destruct (orUndefined (trim y)) as [r|] eqn:E; [|done]. simpl.
  apply orUndefined_Some in E as [-> E]. rewrite trim_idem.
  unfold orUndefined. by rewrite E.
Qed.

Lemma trimCard_idem c : trimCard (trimCard c) = trimCard c.
Proof. unfold trimCard. simpl. by rewrite !trim_idem. Qed.

(** *** Settings *)

Lemma normalizeSettings_full (st : Settings) :
  normalizeSettings (Some (asPartial st)) =
  mkSettings (defaultStudyMode st) (rememberLastDeck st) (reducedMotion st)
             (if rememberLastDeck st then lastDeckId st else None).
Proof.
  unfold normalizeSettings. simpl. f_equal.
  destruct (defaultStudyMode st); by case_decide.
Qed.

Lemma normalizeSettings_idem (x : option PartialSettings) :
  normalizeSettings (Some (asPartial (normalizeSettings x))) = normalizeSettings x.
Proof.
  rewrite normalizeSettings_full.
  unfold normalizeSettings. simpl.
  by destruct (Boolean _).
Qed.

Lemma normalizeSettings_invariant x : settingsInvariant (normalizeSettings x).
Proof. unfold settingsInvariant, normalizeSettings. simpl. by intros ->. Qed.

(** *** Normalisation *)

Lemma normalizeDeck_settled deck :
  settledDeck deck ->
  exists deck', normalizeDeck deck = Returned deck' /\ normalDeck deck'
                /\ deck_id deck' = deck_id deck.
Proof.
  intros [(t1 & P1 & R1) (t2 & P2 & R2)].
  unfold normalDeck, normalizeDeck, reformat. rewrite P1 P2. simpl.
  eexists. split; [done|]. simpl. rewrite R1 R2. simpl.
  by rewrite !trim_idem trimmed_description_idem.
Qed.

Lemma mapOutcome_settled ds :
  Forall settledDeck ds ->
  exists ds', mapOutcome normalizeDeck ds = Returned ds' /\ Forall normalDeck ds'
              /\ deck_id <$> ds' = deck_id <$> ds.
Proof.
  induction 1 as [|d ds Hd _ (ds' & E & N & I)]; [by exists []|].
  destruct (normalizeDeck_settled d Hd) as (d' & Ed & Nd & Id).
  exists (d' :: ds'). simpl. rewrite Ed. simpl. rewrite E. simpl.
  split; [done|]. split; [by constructor|]. by f_equal.
Qed.

Lemma mapOutcome_normal ds :
  Forall normalDeck ds -> mapOutcome normalizeDeck ds = Returned ds.
Proof.
  induction 1 as [|d ds Hd _ IH]; [done|].
  simpl. rewrite Hd. simpl. by rewrite IH.
Qed.

Lemma mapOutcome_Returned ds ds' :
  mapOutcome normalizeDeck ds = Returned ds' ->
  Forall2 (fun d d' => normalizeDeck d = Returned d') ds ds'.
Proof.
  revert ds'. induction ds as [|d ds IH]; intros ds'; simpl.
  - intros [= <-]. constructor.
  - destruct (normalizeDeck d) as [d'|] eqn:Ed; [|done]. simpl.
    destruct (mapOutcome normalizeDeck ds) as [ds''|]; [|done]. simpl.
    intros [= <-]. constructor; auto.
Qed.

Lemma rebuilt_from (acc source : gmap string (list Card)) ds k :
  foldl (fun acc deck =>
           <[deck_id deck := trimCard <$> default [] (source !! deck_id deck)]> acc)
        acc ds !! k =
  if decide (k ∈ deck_id <$> ds)
  then Some (trimCard <$> default [] (source !! k)) else acc !! k.
Proof.
  revert acc. induction ds as [|d ds IH]; intros acc.
  - case_decide as H; [|done]. by apply elem_of_nil in H.
  - rewrite fmap_cons. cbn [foldl]. rewrite IH.
    rewrite lookup_insert.
    destruct (decide (k ∈ deck_id <$> ds)) as [Hin|Hin];
      destruct (decide (k ∈ deck_id d :: (deck_id <$> ds))) as [Hc|Hc];
      destruct (decide (deck_id d = k)) as [Heq|Hne]; try done.
    all: try (exfalso; apply Hc; by apply list_elem_of_further).
    + by rewrite Heq.
    + exfalso. by apply elem_of_cons in Hc as [?|?].
    + exfalso. apply Hc. rewrite Heq. apply list_elem_of_here.
Qed.

Lemma rebuilt_lookup source ds k :
  rebuilt source ds !! k =
  if decide (k ∈ deck_id <$> ds)
  then Some (trimCard <$> default [] (source !! k)) else None.
Proof. unfold rebuilt. by rewrite rebuilt_from lookup_empty. Qed.

Lemma rebuilt_idem source ds :
  rebuilt (rebuilt source ds) ds = rebuilt source ds.
Proof.
  apply map_eq. intros k. rewrite !rebuilt_lookup.
  case_decide; [|done]. simpl. f_equal.
  rewrite -list_fmap_compose. apply list_fmap_ext. intros _ c _. apply trimCard_idem.
Qed.

(** The decks of a rebuilt dictionary have their own entries. *)
Lemma rebuilt_readable source ds :
  Forall (readable (rebuilt source ds)) (deck_id <$> ds).
Proof.
  apply Forall_forall. intros k Hk. left. rewrite rebuilt_lookup decide_True //.
Qed.

(** *** Reading the cards of a deck *)

Lemma arrayAt_readable cs k :
  readable cs k -> arrayAt cs k = Returned (default [] (cs !! k)).
Proof.
  rewrite /arrayAt /getProperty. intros [[cards ->]|Hk]; [done|].
  destruct (cs !! k); [done|]. by rewrite Hk.
Qed.

Lemma arrayAt_Returned cs k (cards : list Card) :
  arrayAt cs k = Returned cards -> readable cs k /\ cards = default [] (cs !! k).
Proof.
  rewrite /arrayAt /getProperty /readable.
  destruct (cs !! k) eqn:E; [intros [= <-]; eauto|].
  destruct (inherited k); [done|]. intros [= <-]. eauto.
Qed.

Lemma arrayAt_Threw (cs : gmap string (list Card)) k e :
  arrayAt cs k = Threw e ->
  e = TypeError /\ cs !! k = None /\ inherited k = true.
Proof.
  rewrite /arrayAt /getProperty.
  destruct (cs !! k) eqn:E; [done|].
  destruct (inherited k) eqn:Ei; [|done]. by intros [= <-].
Qed.

Lemma not_readable cs k : ¬ readable cs k <-> cs !! k = None /\ inherited k = true.
Proof.
  rewrite /readable. split.
  - intros H. destruct (cs !! k) eqn:E; [exfalso; apply H; eauto|].
    destruct (inherited k); [done|]. exfalso. apply H. by right.
  - intros [Hk Hi] [[cards E]|E]; congruence.
Qed.

Lemma rebuildCards_readable source ds built :
  Forall (readable source) (deck_id <$> ds) ->
  rebuildCards source ds built =
  Returned (foldl (fun acc deck =>
                     <[deck_id deck := trimCard <$> default [] (source !! deck_id deck)]> acc)
                  built ds).
Proof.
  revert built. induction ds as [|d ds IH]; intros built; [done|].
  rewrite fmap_cons Forall_cons. intros [Hd Hds].
  cbn [rebuildCards foldl]. rewrite (arrayAt_readable _ _ Hd). simpl. by apply IH.
Qed.

Lemma rebuildCards_Returned source ds built cs :
  rebuildCards source ds built = Returned cs ->
  Forall (readable source) (deck_id <$> ds).
Proof.
  revert built. induction ds as [|d ds IH]; intros built; [constructor|].
  cbn [rebuildCards]. destruct (arrayAt source (deck_id d)) as [cards|e] eqn:E; [|done].
  simpl. intros H. constructor.
  - by apply arrayAt_Returned in E as [? _].
  - by eapply IH.
Qed.

Lemma rebuildCards_Threw source ds built e :
  rebuildCards source ds built = Threw e ->
  e = TypeError /\ ¬ Forall (readable source) (deck_id <$> ds).
Proof.
  revert built. induction ds as [|d ds IH]; intros built; [done|].
  cbn [rebuildCards]. destruct (arrayAt source (deck_id d)) as [cards|e'] eqn:E; simpl.
  - intros [-> Hno]%IH. split; [done|].
    rewrite Forall_cons. by intros [_ ?].
  - intros [= <-]. apply arrayAt_Threw in E as (-> & Hk & Hi). split; [done|].
    rewrite Forall_cons. intros [Hd _]. revert Hd. by apply not_readable.
Qed.

Lemma rebuildCards_unreadable source ds built :
  ¬ Forall (readable source) (deck_id <$> ds) ->
  rebuildCards source ds built = Threw TypeError.
Proof.
  intros Hno. destruct (rebuildCards source ds built) as [cs|e] eqn:E.
  - by apply rebuildCards_Returned in E.
  - by apply rebuildCards_Threw in E as [-> _].
Qed.

(** [normalizeStore] returns where every timestamp is a date and the
    cards of every deck are read, and what it returns is this. *)
Lemma normalizeStoreOf_Returned ds cs st n :
  normalizeStoreOf ds cs st = Returned n ->
  exists ds',
    mapOutcome normalizeDeck ds = Returned ds'
    /\ Forall (readable cs) (deck_id <$> ds')
    /\ n = mkStore ds' (rebuilt cs ds') (normalizeSettings (asPartial <$> st)).
Proof.
  rewrite /normalizeStoreOf.
  destruct (mapOutcome normalizeDeck ds) as [ds'|] eqn:E; simpl; [|done].
  destruct (rebuildCards cs ds' ∅) as [cs'|] eqn:Ec; simpl; [|done].
  intros [= <-]. exists ds'. split; [done|].
  pose proof (rebuildCards_Returned _ _ _ _ Ec) as Hr. split; [done|].
  rewrite (rebuildCards_readable _ _ _ Hr) in Ec. by injection Ec as <-.
Qed.

Lemma normalizeStoreOf_run ds ds' cs st :
  mapOutcome normalizeDeck ds = Returned ds' ->
  Forall (readable cs) (deck_id <$> ds') ->
  normalizeStoreOf ds cs st =
  Returned (mkStore ds' (rebuilt cs ds') (normalizeSettings (asPartial <$> st))).
Proof.
  intros E Hr. rewrite /normalizeStoreOf E /=.
  by rewrite (rebuildCards_readable _ _ _ Hr).
Qed.

Lemma normalizeStoreOf_again ds cs st s1 :
  Forall settledDeck ds ->
  normalizeStoreOf ds cs st = Returned s1 -> normalizeStore s1 = Returned s1.
Proof.
  intros H (ds' & E & Hr & ->)%normalizeStoreOf_Returned.
  destruct (mapOutcome_settled ds H) as (ds'' & E' & N & I).
  rewrite E in E'. injection E' as <-.
  rewrite /normalizeStore /=.
  rewrite (normalizeStoreOf_run _ ds' _ _ (mapOutcome_normal _ N) (rebuilt_readable _ _)).
  by rewrite rebuilt_idem normalizeSettings_idem.
Qed.

Lemma normalizeStoreOf_settled ds cs st :
  Forall settledDeck ds ->
  (Forall (readable cs) (deck_id <$> ds) ->
   exists s1, normalizeStoreOf ds cs st = Returned s1)
  /\ (¬ Forall (readable cs) (deck_id <$> ds) ->
      normalizeStoreOf ds cs st = Threw TypeError).
Proof.
  intros H. destruct (mapOutcome_settled ds H) as (ds' & E & N & I).
  rewrite -I. split; intros Hr.
  - eexists. by apply normalizeStoreOf_run.
  - rewrite /normalizeStoreOf E /=. by rewrite rebuildCards_unreadable.
Qed.

(** C1. Normalisation is idempotent: for every store whose timestamps
    the runtime reads (and reads back once printed), normalising what
    [normalizeStore] returns gives it back unchanged, and the two runs
    throw alike where the first one throws.  It returns where the cards
    of every deck are read, and throws a [TypeError] for a deck that has
    no entry of cards and is named after a property that objects
    inherit. *)
Theorem normalizeStore_idempotent (s : StoreState) :
  Forall settledDeck (decks s) ->
  (normalizeStore s ≫= normalizeStore) = normalizeStore s
  /\ (Forall (readable (cardsByDeck s)) (deck_id <$> decks s) ->
      exists s1, normalizeStore s = Returned s1 /\ normalizeStore s1 = Returned s1)
  /\ (¬ Forall (readable (cardsByDeck s)) (deck_id <$> decks s) ->
      normalizeStore s = Threw TypeError).
Proof.
  intros H. destruct (normalizeStoreOf_settled _ (cardsByDeck s) (Some (settings s)) H)
    as [Hreturns Hthrows].
  split; [|split].
  - destruct (normalizeStore s) as [s1|e] eqn:E; [|done].
    simpl. by eapply normalizeStoreOf_again.
  - intros [s1 E]%Hreturns. exists s1. split; [done|]. by eapply normalizeStoreOf_again.
  - done.
Qed.

(** *** The schemas on typed values *)

Lemma pap_valid {A B} (f : A -> B) (a : A) : pap (valid f) (valid a) = valid (f a).
Proof. done. Qed.


Lemma pall_fmap_valid {A B} (f : A -> Parse B) (g : A -> B) xs :
  Forall (fun x => f x = valid (g x)) xs -> pall (f <$> xs) = valid (g <$> xs).
Proof.
  induction 1 as [|x xs Hx _ IH]; [done|].
  rewrite fmap_cons. cbn [pall]. by rewrite Hx IH.
Qed.

Lemma zMin_string s :
  s <> EmptyString -> zMin 1 None (zString (JString s)) = valid s.
Proof. by destruct s. Qed.


Lemma description_schema o :
  zTransform cleanDescription (zOptional zString (optJS o)) = valid (cleanDescription o).
Proof. by destruct o. Qed.


Lemma isoDateString_valid s :
  s <> EmptyString -> is_Some (parseDate s) -> isoDateString (JString s) = valid s.
Proof.
  intros Hs Hp. rewrite /isoDateString zMin_string // /zRefine /=.
  by rewrite bool_decide_true.
Qed.


Lemma deckSchema_valid deck :
  validDeck deck -> deckSchema (deckJS deck) = valid (cleanDeck deck).
Proof.
  intros (Hi & Ht & Hc & Pc & Hu & Pu).
  rewrite /deckSchema /deckJS. simpl getField.
  by rewrite description_schema !zMin_string // !isoDateString_valid.
Qed.


Lemma cardSchema_valid card : validCard card -> cardSchema (cardJS card) = valid card.
Proof.
  intros (Hi & Hf & Hb). rewrite /cardSchema /cardJS. simpl getField.
  rewrite !zMin_string //. by destruct card.
Qed.


Lemma cardsSchema_valid cards :
  Forall validCard cards -> zArray cardSchema (JArray (cardJS <$> cards)) = valid cards.
Proof.
  intros H. rewrite /zArray -list_fmap_compose.
  rewrite (pall_fmap_valid _ (fun card => card)).
  - by rewrite list_fmap_id.
  - eapply Forall_impl; [exact H|]. apply cardSchema_valid.
Qed.

Lemma assign_all {A} (entries : list (string * A)) :
  foldl (fun acc kv => <[kv.1 := kv.2]> acc) ∅ entries =
  (list_to_map (reverse entries) : gmap string A).
Proof.
  rewrite /list_to_map. generalize (∅ : gmap string A).
  induction entries as [|kv entries IH]; intros acc; [done|].
  rewrite reverse_cons foldr_app /=. apply IH.
Qed.

Lemma assign_map_to_list {A} (m : gmap string A) :
  foldl (fun acc kv => <[kv.1 := kv.2]> acc) ∅ (map_to_list m) = m.
Proof.
  rewrite assign_all -{2}(list_to_map_to_list m).
  apply list_to_map_proper.
  - rewrite fmap_reverse reverse_Permutation. apply NoDup_fst_map_to_list.
  - apply reverse_Permutation.
Qed.


Lemma cardsByDeckSchema_valid m :
  map_Forall (fun _ cards => Forall validCard cards) m ->
  zRecord (zArray cardSchema) (cardsByDeckJS m) = valid m.
Proof.
  intros H. rewrite /zRecord /cardsByDeckJS -list_fmap_compose.
  rewrite (pall_fmap_valid _ (fun kv => kv)).
  - by rewrite list_fmap_id /pmap /valid /= assign_map_to_list.
  - apply Forall_forall. intros [k cards] Hin%elem_of_map_to_list.
    unfold compose. cbn [fst snd]. rewrite cardsSchema_valid //. by apply (H k).
Qed.

Lemma settingsSchema_typed st : settingsSchema (settingsJS st) = valid st.
Proof. by destruct st as [[] ? ? []]. Qed.

Lemma optional_settingsSchema_typed st :
  zOptional settingsSchema (settingsJS st) = valid (Some st).
Proof. by destruct st as [[] ? ? []]. Qed.


Lemma missingCards_none data :
  Forall (fun deck => is_Some (v_cardsByDeck data !! deck_id deck)) (v_decks data) ->
  missingCards data = [].
Proof.
  rewrite /missingCards /getProperty. induction 1 as [|d ds [cards Hd] _ IH]; [done|].
  by rewrite /= Hd IH.
Qed.


Lemma storeSchema_valid store :
  validStore store -> storeSchema (storeJS store) = valid (validated store).
Proof.
  intros (Hd & Hc & He).
  rewrite /storeSchema /storeShape /storeJS. simpl getField.
  rewrite cardsByDeckSchema_valid // optional_settingsSchema_typed /zArray
    -list_fmap_compose.
  rewrite (pall_fmap_valid _ cleanDeck);
    last (eapply Forall_impl; [exact Hd|]; apply deckSchema_valid).
  rewrite /zSuperRefine /= missingCards_none //=.
  by apply Forall_fmap.
Qed.

(** *** The engine *)

Lemma cloneStore_id store : cloneStore store = store.
Proof.
  destruct store as [ds cs st]. rewrite /cloneStore /=. f_equal.
  - apply list_fmap_id.
  - rewrite -{2}(map_fmap_id cs). apply map_fmap_ext. intros k cards _. apply list_fmap_id.
Qed.

Lemma loadStore_id w : loadStore w = inMemoryStore w.
Proof. apply cloneStore_id. Qed.

Lemma findIndex_None {A} (p : A -> bool) xs :
  findIndex p xs = None <-> Forall (fun x => p x = false) xs.
Proof.
  induction xs as [|x xs IH]; simpl.
  - split; [constructor|done].
  - destruct (p x) eqn:E.
    + split; [done|]. intros H. inversion H; congruence.
    + rewrite fmap_None IH. split; [by constructor|]. by inversion 1.
Qed.

Lemma findIndex_Some {A} (p : A -> bool) xs i :
  findIndex p xs = Some i -> exists x, xs !! i = Some x /\ p x = true.
Proof.
  revert i. induction xs as [|x xs IH]; intros i; simpl; [done|].
  destruct (p x) eqn:E.
  - intros [= <-]. eauto.
  - destruct (findIndex p xs) as [j|]; [|done]. intros [= <-].
    destruct (IH j eq_refl) as (y & ? & ?). eauto.
Qed.

Lemma findIndex_is_Some {A} (p : A -> bool) xs x :
  x ∈ xs -> p x = true -> is_Some (findIndex p xs).
Proof.
  intros Hin Hp. destruct (findIndex p xs) eqn:E; [eauto|].
  apply findIndex_None in E. rewrite Forall_forall in E.
  specialize (E x Hin). congruence.
Qed.

Lemma findDeck_None deckId ds :
  findIndex (hasId deckId) ds = None <-> deckId ∉ deck_id <$> ds.
Proof.
  rewrite findIndex_None Forall_forall list_elem_of_fmap. unfold hasId. split.
  - intros H (d & -> & Hin). specialize (H d Hin). by rewrite bool_decide_true in H.
  - intros H d Hin. apply bool_decide_false. intros <-. apply H. eauto.
Qed.

Lemma findCard_None cardId cs :
  findIndex (hasCardId cardId) cs = None <-> cardId ∉ card_id <$> cs.
Proof.
  rewrite findIndex_None Forall_forall list_elem_of_fmap. unfold hasCardId. split.
  - intros H (c & -> & Hin). specialize (H c Hin). by rewrite bool_decide_true in H.
  - intros H c Hin. apply bool_decide_false. intros <-. apply H. eauto.
Qed.

Lemma normalizeDeck_throws deck e :
  normalizeDeck deck = Threw e -> e = RangeError "Invalid time value".
Proof.
  rewrite /normalizeDeck /reformat.
  destruct (parseDate (createdAt deck)); simpl; [|by intros [= <-]].
  destruct (parseDate (updatedAt deck)); simpl; [|by intros [= <-]]. by intros [=].
Qed.

Lemma mapOutcome_throws ds e :
  mapOutcome normalizeDeck ds = Threw e -> e = RangeError "Invalid time value".
Proof.
  induction ds as [|d ds IH]; simpl; [by intros [=]|].
  destruct (normalizeDeck d) eqn:Ed; simpl.
  - destruct (mapOutcome normalizeDeck ds); simpl; [by intros [=]|].
    intros [= <-]. by apply IH.
  - intros [= <-]. by eapply normalizeDeck_throws.
Qed.

Lemma normalizeStoreOf_throws ds cs st e :
  normalizeStoreOf ds cs st = Threw e ->
  e = RangeError "Invalid time value" \/ e = TypeError.
Proof.
  rewrite /normalizeStoreOf.
  destruct (mapOutcome normalizeDeck ds) as [ds'|] eqn:E; simpl;
    [|intros [= <-]; left; by eapply mapOutcome_throws].
  destruct (rebuildCards cs ds' ∅) as [cs'|] eqn:Ec; simpl; [done|].
  intros [= <-]. right. by apply rebuildCards_Threw in Ec as [-> _].
Qed.

Lemma persist_unfold store w :
  persist store w =
  match localStorage w with
  | None => (Returned tt, w)
  | Some _ =>
      match parse (storeSchema (storeJS store)) with
      | Returned data => (Returned tt, setItem (toJSON (validJS data)) w)
      | Threw e => (Threw e, w)
      end
  end.
Proof.
  rewrite /persist /get /lift /modify /mbind /St_bind.
  destruct (localStorage w); [|done]. by destruct (parse _).
Qed.

Lemma parse_throws {A} (p : Parse A) e : parse p = Threw e -> exists issues, e = ZodError issues.
Proof. destruct p as [[a|] [|i rest]]; simpl; intros [= <-]; eauto. Qed.

Lemma persist_throws store w e w' :
  persist store w = (Threw e, w') -> w' = w /\ exists issues, e = ZodError issues.
Proof.
  rewrite persist_unfold. destruct (localStorage w); [|done].
  destruct (parse _) eqn:E; [done|]. intros [= <- <-]. split; [done|].
  by eapply parse_throws.
Qed.

(** [mutateStore] step by step. *)
Lemma mutateStore_unfold {T} (mutator : St StoreState T) w :
  mutateStore mutator w =
  match mutator (inMemoryStore w) with
  | (Threw e, _) => (Threw e, w)
  | (Returned result, draft) =>
      match normalizeStore draft with
      | Threw e => (Threw e, w)
      | Returned normalized =>
          match persist normalized (set_inMemoryStore normalized w) with
          | (Threw e, w') => (Threw e, w')
          | (Returned _, w') => (Returned (inMemoryStore w', result), w')
          end
      end
  end.
Proof.
  rewrite /mutateStore /snapshot /onDraft /get /lift /modify /mbind /St_bind /mret /St_ret.
  rewrite loadStore_id.
  destruct (mutator (inMemoryStore w)) as [[result|e] draft]; [|done].
  simpl. destruct (normalizeStore draft) as [normalized|e]; [|done].
  rewrite cloneStore_id.
  destruct (persist _ _) as [[[]|e] w']; [|done].
  by rewrite loadStore_id.
Qed.

(** A throw of the mutator leaves everything as it was; an [Error] has no
    other origin, and nothing but the [ZodError] of [persist] is thrown
    once the store in memory is replaced. *)
Lemma mutateStore_thrown {T} (mutator : St StoreState T) w e draft :
  mutator (inMemoryStore w) = (Threw e, draft) -> mutateStore mutator w = (Threw e, w).
Proof. intros H. by rewrite mutateStore_unfold H. Qed.

Lemma mutateStore_Error {T} (mutator : St StoreState T) w message w' :
  mutateStore mutator w = (Threw (Error message), w') ->
  w' = w /\ exists draft, mutator (inMemoryStore w) = (Threw (Error message), draft).
Proof.
  rewrite mutateStore_unfold.
  destruct (mutator (inMemoryStore w)) as [[result|e] draft].
  - destruct (normalizeStore draft) as [normalized|e] eqn:E.
    + destruct (persist _ _) as [[[]|e] w1] eqn:P; [done|].
      apply persist_throws in P as (_ & issues & ->). done.
    + by apply normalizeStoreOf_throws in E as [->| ->].
  - intros [= -> <-]. eauto.
Qed.

Lemma mutateStore_Threw {T} (mutator : St StoreState T) w e w' :
  mutateStore mutator w = (Threw e, w') ->
  (forall issues, e <> ZodError issues) -> w' = w.
Proof.
  rewrite mutateStore_unfold.
  destruct (mutator (inMemoryStore w)) as [[result|e0] draft]; [|by intros [= _ <-]].
  destruct (normalizeStore draft) as [normalized|e0]; [|by intros [= _ <-]].
  destruct (persist _ _) as [[[]|e0] w1] eqn:P; [done|].
  apply persist_throws in P as (_ & issues & ->). intros [= <- _] H. by destruct (H issues).
Qed.

(** *** Refusals *)

Lemma bind_ret_Threw {S A B} (m : St S A) (k : A -> B) s e s' :
  (x ← m; mret (k x)) s = (Threw e, s') <-> m s = (Threw e, s').
Proof.
  rewrite /mbind /St_bind /mret /St_ret.
  destruct (m s) as [[a|e0] s0]; simpl; split; by intros [= -> ->].
Qed.

Lemma isEmpty_blank t : isEmpty (trim t) = true <-> blank t.
Proof. apply isEmpty_true. Qed.

Lemma createDeck_mutator_run now newId trimmedTitle input st :
  exists deck st', createDeck_mutator now newId trimmedTitle input st = (Returned deck, st').
Proof. by eexists _, _. Qed.

Lemma updateDeck_mutator_Threw now deckId changes st e draft :
  updateDeck_mutator now deckId changes st = (Threw e, draft) ->
  deckId ∉ deck_id <$> decks st \/ exists t, upd_title changes = Some t /\ blank t.
Proof.
  rewrite /updateDeck_mutator. run_St.
  destruct (findIndex (hasId deckId) (decks st)) as [i|] eqn:Ei;
    [|intros _; left; by apply findDeck_None].
  destruct (findIndex_Some _ _ _ Ei) as (d & Hd & _).
  destruct (upd_title changes) as [t|].
  - destruct (isEmpty (trim t)) eqn:Et.
    { intros _. right. exists t. split; [done|]. by apply isEmpty_blank. }
    run_St. destruct (upd_description changes) as [[desc|]|]; run_St;
      by rewrite ?list_lookup_alter_eq Hd.
  - run_St. destruct (upd_description changes) as [[desc|]|]; run_St;
      by rewrite ?list_lookup_alter_eq Hd.
Qed.

Lemma updateDeck_mutator_refuses now deckId changes st :
  deckId ∉ deck_id <$> decks st \/ (exists t, upd_title changes = Some t /\ blank t) ->
  exists message, updateDeck_mutator now deckId changes st = (Threw (Error message), st).
Proof.
  rewrite /updateDeck_mutator. run_St.
  destruct (findIndex (hasId deckId) (decks st)) as [i|] eqn:Ei; [|by eauto].
  intros [Hno|(t & -> & Ht%isEmpty_blank)].
  - apply findDeck_None in Hno. congruence.
  - rewrite Ht. eauto.
Qed.

Lemma deleteDeck_mutator_Threw deckId st e draft :
  deleteDeck_mutator deckId st = (Threw e, draft) -> deckId ∉ deck_id <$> decks st.
Proof.
  rewrite /deleteDeck_mutator. run_St.
  destruct (findIndex (hasId deckId) (decks st)) as [i|] eqn:Ei;
    [|intros _; by apply findDeck_None].
  run_St. by case_decide.
Qed.

Lemma deleteDeck_mutator_refuses deckId st :
  deckId ∉ deck_id <$> decks st ->
  deleteDeck_mutator deckId st = (Threw (Error ("Deck " +:+ deckId +:+ " not found")), st).
Proof.
  intros Hno%findDeck_None. rewrite /deleteDeck_mutator. run_St. by rewrite Hno.
Qed.

(** The mutators that read the cards of the deck they found: the read
    throws a [TypeError], and nothing else does but the refusals. *)
Lemma addCard_mutator_Threw now newId deckId f b st message draft :
  addCard_mutator now newId deckId f b st = (Threw (Error message), draft) ->
  deckId ∉ deck_id <$> decks st.
Proof.
  rewrite /addCard_mutator. run_St.
  destruct (findIndex (hasId deckId) (decks st)) as [i|] eqn:Ei;
    [|intros _; by apply findDeck_None].
  destruct (arrayAt (cardsByDeck st) deckId) as [cards|e] eqn:Ec; [done|].
  by apply arrayAt_Threw in Ec as (-> & _).
Qed.

Lemma addCard_mutator_refuses now newId deckId f b st :
  deckId ∉ deck_id <$> decks st ->
  exists message, addCard_mutator now newId deckId f b st = (Threw (Error message), st).
Proof.
  intros Hno%findDeck_None. rewrite /addCard_mutator. run_St. rewrite Hno. eauto.
Qed.

Lemma updateCard_mutator_Threw now deckId cardId changes st message draft :
  updateCard_mutator now deckId cardId changes st = (Threw (Error message), draft) ->
  deckId ∉ deck_id <$> decks st
  \/ readable (cardsByDeck st) deckId
     /\ (cardId ∉ card_id <$> default [] (cardsByDeck st !! deckId)
         \/ (exists t, upd_front changes = Some t /\ blank t)
         \/ (exists t, upd_back changes = Some t /\ blank t)).
Proof.
  rewrite /updateCard_mutator. run_St.
  destruct (findIndex (hasId deckId) (decks st)) as [i|] eqn:Ei;
    [|intros _; left; by apply findDeck_None].
  destruct (arrayAt (cardsByDeck st) deckId) as [cards|e] eqn:Ec;
    [|by apply arrayAt_Threw in Ec as (-> & _)].
  apply arrayAt_Returned in Ec as [Hr ->]. intros H. right. split; [done|]. revert H.
  destruct (findIndex (hasCardId cardId) _) as [j|] eqn:Ej;
    [|intros _; left; by apply findCard_None].
  destruct (findIndex_Some _ _ _ Ej) as (c & Hc & _).
  destruct (cardsByDeck st !! deckId) as [cards|] eqn:Ecards; [|done].
  simpl in Hc.
  destruct (upd_front changes) as [tf|], (upd_back changes) as [tb|]; run_St.
  - destruct (isEmpty (trim tf)) eqn:Ef.
    { intros _. right; left. exists tf. split; [done|]. by apply isEmpty_blank. }
    run_St. destruct (isEmpty (trim tb)) eqn:Eb.
    { intros _. right; right. exists tb. split; [done|]. by apply isEmpty_blank. }
    run_St. by rewrite !lookup_alter_eq Ecards /= !list_lookup_alter_eq Hc.
  - destruct (isEmpty (trim tf)) eqn:Ef.
    { intros _. right; left. exists tf. split; [done|]. by apply isEmpty_blank. }
    run_St. by rewrite !lookup_alter_eq Ecards /= !list_lookup_alter_eq Hc.
  - destruct (isEmpty (trim tb)) eqn:Eb.
    { intros _. right; right. exists tb. split; [done|]. by apply isEmpty_blank. }
    run_St. by rewrite !lookup_alter_eq Ecards /= !list_lookup_alter_eq Hc.
  - by rewrite Ecards /= Hc.
Qed.

Lemma updateCard_mutator_refuses now deckId cardId changes st :
  deckId ∉ deck_id <$> decks st
  \/ readable (cardsByDeck st) deckId
     /\ (cardId ∉ card_id <$> default [] (cardsByDeck st !! deckId)
         \/ (exists t, upd_front changes = Some t /\ blank t)
         \/ (exists t, upd_back changes = Some t /\ blank t)) ->
  exists message draft,
    updateCard_mutator now deckId cardId changes st = (Threw (Error message), draft).
Proof.
  rewrite /updateCard_mutator. run_St.
  destruct (findIndex (hasId deckId) (decks st)) as [i|] eqn:Ei; [|by eauto].
  intros [Hno|[Hr H]]; [apply findDeck_None in Hno; congruence|].
  rewrite (arrayAt_readable _ _ Hr). run_St. revert H.
  destruct (findIndex (hasCardId cardId) _) as [j|] eqn:Ej; [|by eauto].
  intros [Hno|[(t & -> & Ht%isEmpty_blank)|(t & -> & Ht%isEmpty_blank)]].
  - apply findCard_None in Hno. congruence.
  - rewrite Ht. eauto.
  - rewrite Ht. destruct (upd_front changes) as [tf|]; run_St; [|by eauto].
    destruct (isEmpty (trim tf)); run_St; eauto.
Qed.

Lemma deleteCard_mutator_Threw now deckId cardId st message draft :
  deleteCard_mutator now deckId cardId st = (Threw (Error message), draft) ->
  deckId ∉ deck_id <$> decks st
  \/ readable (cardsByDeck st) deckId
     /\ cardId ∉ card_id <$> default [] (cardsByDeck st !! deckId).
Proof.
  rewrite /deleteCard_mutator. run_St.
  destruct (findIndex (hasId deckId) (decks st)) as [i|] eqn:Ei;
    [|intros _; left; by apply findDeck_None].
  destruct (arrayAt (cardsByDeck st) deckId) as [cards|e] eqn:Ec;
    [|by apply arrayAt_Threw in Ec as (-> & _)].
  apply arrayAt_Returned in Ec as [Hr ->]. intros H. right. split; [done|]. revert H.
  by destruct (findIndex (hasCardId cardId) _) as [j|] eqn:Ej;
    [|intros _; by apply findCard_None].
Qed.

Lemma deleteCard_mutator_refuses now deckId cardId st :
  deckId ∉ deck_id <$> decks st
  \/ readable (cardsByDeck st) deckId
     /\ cardId ∉ card_id <$> default [] (cardsByDeck st !! deckId) ->
  exists message, deleteCard_mutator now deckId cardId st = (Threw (Error message), st).
Proof.
  rewrite /deleteCard_mutator. run_St.
  destruct (findIndex (hasId deckId) (decks st)) as [i|] eqn:Ei; [|by eauto].
  intros [Hno|[Hr Hno]]; [apply findDeck_None in Hno; congruence|].
  rewrite (arrayAt_readable _ _ Hr). run_St.
  destruct (findIndex (hasCardId cardId) _) as [j|] eqn:Ej; [|by eauto].
  apply findCard_None in Hno. congruence.
Qed.

Lemma perform_refuses m w :
  rejected m w -> exists message, perform m w = (Threw (Error message), w).
Proof.
  destruct m as [now newId input|now deckId changes|deckId|now newId deckId input
                 |now deckId cardId changes|now deckId cardId]; simpl.
  - intros Hb%isEmpty_blank. eexists. apply bind_ret_Threw.
    by rewrite /createDeck Hb.
  - intros H. destruct (updateDeck_mutator_refuses (toISOString now) deckId changes _ H)
      as (message & E).
    exists message. do 2 apply bind_ret_Threw. by eapply mutateStore_thrown.
  - intros H. eexists. apply bind_ret_Threw. eapply mutateStore_thrown.
    by apply deleteDeck_mutator_refuses.
  - intros H. rewrite /addCard.
    destruct (isEmpty (trim (new_front input)) || isEmpty (trim (new_back input))) eqn:Eb.
    { eexists. by apply bind_ret_Threw. }
    apply orb_false_iff in Eb as [Ef Eb].
    destruct H as [H%isEmpty_blank|[H%isEmpty_blank|H]]; [congruence..|].
    destruct (addCard_mutator_refuses (toISOString now) newId deckId
                (trim (new_front input)) (trim (new_back input)) _ H) as (message & E).
    exists message. do 2 apply bind_ret_Threw. by eapply mutateStore_thrown.
  - intros H.
    destruct (updateCard_mutator_refuses (toISOString now) deckId cardId changes _ H)
      as (message & draft & E).
    exists message. do 2 apply bind_ret_Threw. by eapply mutateStore_thrown.
  - intros H.
    destruct (deleteCard_mutator_refuses (toISOString now) deckId cardId _ H)
      as (message & E).
    exists message. apply bind_ret_Threw. by eapply mutateStore_thrown.
Qed.

Lemma perform_Error m w message w' :
  perform m w = (Threw (Error message), w') -> rejected m w /\ w' = w.
Proof.
  destruct m as [now newId input|now deckId changes|deckId|now newId deckId input
                 |now deckId cardId changes|now deckId cardId]; simpl.
  - intros H%bind_ret_Threw. revert H. rewrite /createDeck.
    destruct (isEmpty (trim (new_title input))) eqn:Eb.
    { intros [= <- <-]. split; [|done]. by apply isEmpty_blank. }
    intros (-> & draft & H)%bind_ret_Threw%mutateStore_Error. done.
  - intros (-> & draft & H)%bind_ret_Threw%bind_ret_Threw%mutateStore_Error.
    split; [|done]. by eapply updateDeck_mutator_Threw.
  - intros (-> & draft & H)%bind_ret_Threw%mutateStore_Error.
    split; [|done]. by eapply deleteDeck_mutator_Threw.
  - intros H%bind_ret_Threw. revert H. rewrite /addCard.
    destruct (isEmpty (trim (new_front input)) || isEmpty (trim (new_back input))) eqn:Eb.
    { intros [= <- <-]. split; [|done].
      apply orb_true_iff in Eb as [Eb%isEmpty_blank|Eb%isEmpty_blank]; auto. }
    intros (-> & draft & H)%bind_ret_Threw%mutateStore_Error.
    split; [|done]. right; right. by eapply addCard_mutator_Threw.
  - intros (-> & draft & H)%bind_ret_Threw%bind_ret_Threw%mutateStore_Error.
    split; [|done]. by eapply updateCard_mutator_Threw.
  - intros (-> & draft & H)%bind_ret_Threw%mutateStore_Error.
    split; [|done]. by eapply deleteCard_mutator_Threw.
Qed.

(** Whatever a mutation throws, but for the [ZodError] of [persist], it
    throws before the store in memory is replaced. *)
Lemma perform_Threw m w e w' :
  perform m w = (Threw e, w') -> (forall issues, e <> ZodError issues) -> w' = w.
Proof.
  destruct m as [now newId input|now deckId changes|deckId|now newId deckId input
                 |now deckId cardId changes|now deckId cardId]; simpl.
  - intros H%bind_ret_Threw. revert H. rewrite /createDeck.
    destruct (isEmpty (trim (new_title input))); [by intros [= _ <-]|].
    intros H%bind_ret_Threw. by eapply mutateStore_Threw.
  - intros H%bind_ret_Threw%bind_ret_Threw. by eapply mutateStore_Threw.
  - intros H%bind_ret_Threw. by eapply mutateStore_Threw.
  - intros H%bind_ret_Threw. revert H. rewrite /addCard.
    destruct (isEmpty (trim (new_front input)) || isEmpty (trim (new_back input)));
      [by intros [= _ <-]|].
    intros H%bind_ret_Threw. by eapply mutateStore_Threw.
  - intros H%bind_ret_Threw%bind_ret_Threw. by eapply mutateStore_Threw.
  - intros H%bind_ret_Threw. by eapply mutateStore_Threw.
Qed.

(** C2. Every mutation is atomic on failure: a mutation whose required
    text is blank after trimming, or whose deck or card is not there,
    throws and leaves the in-memory store and the stored document as they
    were; a mutation throws an [Error] in no other case; and whatever
    else it throws before validation, a [TypeError] of a read or a
    [RangeError] of a timestamp, leaves them as they were too. *)
Theorem mutation_atomic_on_failure (m : Mutation) (w : World) :
  (rejected m w -> exists message, perform m w = (Threw (Error message), w))
  /\ (forall message w',
        perform m w = (Threw (Error message), w') -> rejected m w /\ w' = w)
  /\ (forall e w',
        perform m w = (Threw e, w') -> (forall issues, e <> ZodError issues) -> w' = w).
Proof. split; [apply perform_refuses|split; [apply perform_Error|apply perform_Threw]]. Qed.

(** *** Stores at rest *)

Lemma mapOutcome_fixed ds :
  mapOutcome normalizeDeck ds = Returned ds -> Forall normalDeck ds.
Proof.
  induction ds as [|d ds IH]; simpl; [constructor|].
  destruct (normalizeDeck d) as [d'|] eqn:Ed; simpl; [|done].
  destruct (mapOutcome normalizeDeck ds) as [ds'|]; simpl; [|done].
  intros [= -> ->]. constructor; auto.
Qed.

Lemma normalStore_inv store :
  normalStore store ->
  Forall normalDeck (decks store)
  /\ rebuilt (cardsByDeck store) (decks store) = cardsByDeck store
  /\ normalizeSettings (Some (asPartial (settings store))) = settings store.
Proof.
  destruct store as [ds cs st]. rewrite /normalStore /normalizeStore /=.
  intros (ds' & E & Hr & [= <- Hc Hs])%normalizeStoreOf_Returned.
  split; [by apply mapOutcome_fixed|]. done.
Qed.

Lemma normalStore_readable store :
  normalStore store -> Forall (readable (cardsByDeck store)) (deck_id <$> decks store).
Proof.
  destruct store as [ds cs st]. rewrite /normalStore /normalizeStore /=.
  by intros (ds' & E & Hr & [= <- Hc Hs])%normalizeStoreOf_Returned.
Qed.

Lemma normalStore_intro ds cs st :
  Forall normalDeck ds -> Forall (readable cs) (deck_id <$> ds) ->
  normalizeStore (mkStore ds cs st) =
  Returned (mkStore ds (rebuilt cs ds) (normalizeSettings (Some (asPartial st)))).
Proof.
  intros H Hr. rewrite /normalizeStore /=.
  by rewrite (normalizeStoreOf_run _ ds _ _ (mapOutcome_normal _ H) Hr).
Qed.

Lemma normalStore_cards store k :
  normalStore store -> k ∈ deck_id <$> decks store ->
  cardsByDeck store !! k = Some (trimCard <$> default [] (cardsByDeck store !! k)).
Proof.
  intros (_ & Hc & _)%normalStore_inv Hk.
  rewrite -{1}Hc rebuilt_lookup. by rewrite decide_True.
Qed.

Lemma normalStore_trimmed store k :
  normalStore store -> k ∈ deck_id <$> decks store ->
  trimCard <$> default [] (cardsByDeck store !! k) = default [] (cardsByDeck store !! k).
Proof.
  intros Hn Hk. pose proof (normalStore_cards _ _ Hn Hk) as H.
  by rewrite {2}H.
Qed.

Lemma normalStore_no_orphans store k :
  normalStore store -> k ∉ deck_id <$> decks store -> cardsByDeck store !! k = None.
Proof.
  intros (_ & Hc & _)%normalStore_inv Hk.
  rewrite -Hc rebuilt_lookup. by rewrite decide_False.
Qed.

Lemma validStore_cards store k cards :
  validStore store -> cardsByDeck store !! k = Some cards -> Forall validCard cards.
Proof. intros (_ & Hc & _) Hk. by apply (Hc k). Qed.

Lemma parse_valid {A} (a : A) : parse (valid a) = Returned a.
Proof. done. Qed.

Lemma persist_valid store w :
  validStore store ->
  persist store w =
  (Returned tt,
   mkWorld (inMemoryStore w)
           ((fun _ => Some (Document (toJSON (validJS (validated store)))))
              <$> localStorage w)).
Proof.
  intros H. rewrite persist_unfold storeSchema_valid // parse_valid /setItem.
  destruct w as [st [slot|]]; done.
Qed.

Lemma mutateStore_commits {T} (mutator : St StoreState T) w result draft normalized :
  mutator (inMemoryStore w) = (Returned result, draft) ->
  normalizeStore draft = Returned normalized ->
  validStore normalized ->
  mutateStore mutator w = (Returned (normalized, result), commit normalized w).
Proof.
  intros Hm Hn Hv. by rewrite mutateStore_unfold Hm Hn persist_valid.
Qed.

(** *** Sorting *)

Lemma insertBy_Permutation {A} (compare : A -> A -> Z) x sorted :
  insertBy compare x sorted ≡ₚ x :: sorted.
Proof.
  induction sorted as [|y rest IH]; simpl; [done|].
  destruct (0 <? compare x y); [|done]. by rewrite IH Permutation_swap.
Qed.

Lemma sortBy_Permutation {A} (compare : A -> A -> Z) xs : sortBy compare xs ≡ₚ xs.
Proof.
  induction xs as [|x xs IH]; simpl; [done|].
  by rewrite insertBy_Permutation IH.
Qed.

Lemma listDecks_Permutation w : listDecks w ≡ₚ decks (inMemoryStore w).
Proof. by rewrite /listDecks sortBy_Permutation loadStore_id. Qed.

(** *** Creating a deck *)

Lemma created_normal now newId input :
  printable now -> normalDeck (created now newId input).
Proof.
  intros [_ Hp]. rewrite /normalDeck /normalizeDeck /reformat /created /= Hp /=.
  by rewrite trim_idem trimmed_description_idem.
Qed.

Lemma created_valid now newId input :
  printable now -> newId <> EmptyString -> ¬ blank (new_title input) ->
  validDeck (created now newId input).
Proof.
  intros [Hne Hp] Hid Ht. rewrite /validDeck /= Hp. repeat split; eauto.
Qed.

Lemma rebuilt_entries cs ds :
  Forall (fun deck => is_Some (rebuilt cs ds !! deck_id deck)) ds.
Proof.
  apply Forall_forall. intros d Hd. rewrite rebuilt_lookup decide_True; [eauto|].
  by apply list_elem_of_fmap_2.
Qed.

Lemma normalStore_rebuilt ds cs x :
  Forall normalDeck ds ->
  normalStore (mkStore ds (rebuilt cs ds) (normalizeSettings x)).
Proof.
  intros H. rewrite /normalStore normalStore_intro //; [|apply rebuilt_readable].
  by rewrite rebuilt_idem normalizeSettings_idem.
Qed.

Lemma readable_insert cs k cards k' :
  readable cs k' -> readable (<[k := cards]> cs) k'.
Proof.
  intros [H|H]; [|by right]. left.
  destruct (decide (k = k')) as [->|Hne]; [rewrite lookup_insert_eq; eauto|].
  by rewrite lookup_insert_ne.
Qed.

Lemma readable_inserted cs k cards : readable (<[k := cards]> cs) k.
Proof. left. rewrite lookup_insert_eq. eauto. Qed.

Lemma createDeck_normalizes now newId input store :
  normalStore store -> printable now ->
  normalizeStore
    (set_cardsByDeck (insert newId [])
       (set_decks (fun ds => ds ++ [created now newId input]) store)) =
  Returned (mkStore (decks store ++ [created now newId input])
                    (rebuilt (<[newId := []]> (cardsByDeck store))
                             (decks store ++ [created now newId input]))
                    (settings store)).
Proof.
  intros Hn Hp. destruct (normalStore_inv _ Hn) as (Hd & _ & Hs).
  rewrite /set_cardsByDeck /set_decks /= normalStore_intro.
  - by rewrite Hs.
  - apply Forall_app. split; [done|]. constructor; [|done]. by apply created_normal.
  - rewrite fmap_app. apply Forall_app. split.
    + eapply Forall_impl; [by apply normalStore_readable|].
      intros k Hk. by apply readable_insert.
    + constructor; [|done]. apply readable_inserted.
Qed.

Lemma createDeck_valid now newId input store :
  normalStore store -> validStore store -> printable now ->
  newId <> EmptyString -> ¬ blank (new_title input) ->
  validStore (mkStore (decks store ++ [created now newId input])
                      (rebuilt (<[newId := []]> (cardsByDeck store))
                               (decks store ++ [created now newId input]))
                      (settings store)).
Proof.
  intros Hn Hv Hp Hid Ht. split; [|split]; simpl.
  - apply Forall_app. split; [apply Hv|]. constructor; [|done]. by apply created_valid.
  - intros k cards. rewrite rebuilt_lookup. case_decide as Hk; [|done].
    intros [= <-]. destruct (decide (k = newId)) as [->|Hne].
    { rewrite lookup_insert_eq. constructor. }
    rewrite lookup_insert_ne //.
    assert (k ∈ deck_id <$> decks store) as Hin.
    { rewrite fmap_app elem_of_app in Hk. destruct Hk as [?|Hk]; [done|].
      apply list_elem_of_singleton in Hk. done. }
    rewrite normalStore_trimmed //.
    destruct (cardsByDeck store !! k) as [cards|] eqn:E; simpl; [|constructor].
    by eapply validStore_cards.
  - apply rebuilt_entries.
Qed.

(** C3, as the code has it. A deck created with a title that is not
    blank is returned and listed: [listDecks] holds the decks it held
    and the new one, so one more deck with the trimmed title than
    before (exactly one where no deck carried it), and [listCards] of
    the new identifier is empty. *)
Theorem createDeck_listed (now : Z) (newId : string) (input : CreateDeckInput)
    (w : World) :
  steady w -> printable now -> newId <> EmptyString -> ¬ blank (new_title input) ->
  exists store w',
    createDeck now newId input w = (Returned (created now newId input, store), w')
    /\ store = inMemoryStore w' /\ steady w'
    /\ listDecks w' ≡ₚ created now newId input :: listDecks w
    /\ List.length (titled (trim (new_title input)) (listDecks w'))
       = S (List.length (titled (trim (new_title input)) (listDecks w)))
    /\ listCards w' newId = Returned [].
Proof.
  intros [Hn Hv] Hp Hid Ht.
  pose proof (createDeck_normalizes now newId input _ Hn Hp) as Hnorm.
  pose proof (createDeck_valid now newId input _ Hn Hv Hp Hid Ht) as Hvalid.
  set (n := mkStore _ _ _) in Hnorm, Hvalid.
  exists n, (commit n w).
  assert (createDeck now newId input w
          = (Returned (created now newId input, n), commit n w)) as Hrun.
  { rewrite /createDeck. destruct (isEmpty _) eqn:Eb; [by apply isEmpty_blank in Eb|].
    rewrite /mbind /St_bind.
    by rewrite (mutateStore_commits _ w (created now newId input) _ n eq_refl Hnorm Hvalid). }
  assert (listDecks (commit n w) ≡ₚ created now newId input :: listDecks w) as Hperm.
  { rewrite !listDecks_Permutation /=. by rewrite Permutation_app_comm. }
  split; [done|]. split; [done|]. split.
  { split; [|done]. simpl. destruct (normalStore_inv _ Hn) as (Hd & _ & Hs).
    rewrite /n -Hs. apply normalStore_rebuilt, Forall_app.
    split; [done|]. constructor; [|done]. by apply created_normal. }
  split; [done|]. split.
  - rewrite /titled Hperm filter_cons_True //.
  - rewrite /listCards loadStore_id /= /arrayAt /getProperty rebuilt_lookup decide_True.
    + by rewrite lookup_insert_eq.
    + rewrite fmap_app elem_of_app. right. apply list_elem_of_singleton. done.
Qed.

(** *** Deleting a deck *)










(** *** The invariant of the settings *)

Lemma normalizeStoreOf_invariant ds cs st n :
  normalizeStoreOf ds cs st = Returned n -> settingsInvariant (settings n).
Proof.
  intros (ds' & _ & _ & ->)%normalizeStoreOf_Returned.
  apply normalizeSettings_invariant.
Qed.

Lemma persist_inMemory store w : inMemoryStore (persist store w).2 = inMemoryStore w.
Proof.
  rewrite persist_unfold. destruct (localStorage w); [|done]. by destruct (parse _).
Qed.

Lemma persist_result store w :
  exists e w', inMemoryStore w' = inMemoryStore w
    /\ (persist store w = (Returned tt, w') \/ persist store w = (Threw e, w')).
Proof.
  pose proof (persist_inMemory store w) as H.
  destruct (persist store w) as [[[]|e] w'] eqn:E; simpl in H.
  - exists SyntaxError, w'. eauto.
  - exists e, w'. eauto.
Qed.

(** What a run of [mutateStore] leaves in memory: the store as it was, or
    the normalised draft. *)
Lemma mutateStore_inMemory {T} (mutator : St StoreState T) w :
  inMemoryStore (mutateStore mutator w).2 = inMemoryStore w
  \/ exists result draft,
       mutator (inMemoryStore w) = (Returned result, draft)
       /\ normalizeStore draft = Returned (inMemoryStore (mutateStore mutator w).2).
Proof.
  rewrite mutateStore_unfold.
  destruct (mutator (inMemoryStore w)) as [[result|e] draft] eqn:Em; [|by left].
  destruct (normalizeStore draft) as [n|e] eqn:En; [|by left].
  right. exists result, draft. split; [done|].
  pose proof (persist_inMemory n (set_inMemoryStore n w)) as H.
  destruct (persist n _) as [[[]|e] w']; simpl in H |- *; by rewrite H.
Qed.

Lemma mutateStore_invariant {T} (mutator : St StoreState T) w :
  invariant w -> invariant (mutateStore mutator w).2.
Proof.
  intros H. rewrite /invariant.
  destruct (mutateStore_inMemory mutator w) as [->|(r & d & _ & Hn)]; [done|].
  by eapply normalizeStoreOf_invariant.
Qed.

Lemma bind_ret_snd {S A B} (m : St S A) (k : A -> B) s :
  ((x ← m; mret (k x)) s).2 = (m s).2.
Proof. rewrite /mbind /St_bind /mret /St_ret. by destruct (m s) as [[a|e] s']. Qed.

Lemma perform_invariant m w : invariant w -> invariant (perform m w).2.
Proof.
  intros H.
  destruct m as [now newId input|now deckId changes|deckId|now newId deckId input
                 |now deckId cardId changes|now deckId cardId]; simpl;
    rewrite ?bind_ret_snd; try by apply mutateStore_invariant.
  - rewrite /createDeck. destruct (isEmpty _); [done|].
    rewrite bind_ret_snd. by apply mutateStore_invariant.
  - rewrite /addCard. destruct (_ || _); [done|].
    rewrite bind_ret_snd. by apply mutateStore_invariant.
Qed.

Lemma saveStore_invariant store w : invariant w -> invariant (saveStore store w).2.
Proof.
  intros H. rewrite /saveStore /lift /modify /mbind /St_bind /invariant.
  destruct (normalizeStore store) as [n|e] eqn:En; [|done].
  rewrite persist_inMemory /= ?cloneStore_id. by eapply normalizeStoreOf_invariant.
Qed.

(** Hydration returns a normalised store and leaves [inMemoryStore] to its
    caller. *)
Lemma seed_result now generateId w :
  inMemoryStore (seed now generateId w).2 = inMemoryStore w
  /\ forall s, (seed now generateId w).1 = Returned s -> settingsInvariant (settings s).
Proof.
  rewrite /seed /lift /mbind /St_bind /mret /St_ret.
  destruct (normalizeStore _) as [n|e] eqn:En; [|done].
  pose proof (persist_inMemory n w) as H.
  destruct (persist n w) as [[[]|e] w']; simpl in H |- *; split; try done.
  intros s [= <-]. by eapply normalizeStoreOf_invariant.
Qed.

Lemma hydrateFromStorage_result now generateId w :
  inMemoryStore (hydrateFromStorage now generateId w).2 = inMemoryStore w
  /\ forall s, (hydrateFromStorage now generateId w).1 = Returned s ->
               settingsInvariant (settings s).
Proof.
  rewrite /hydrateFromStorage /get /mbind /St_bind.
  destruct (localStorage w) as [[raw|]|] eqn:Es.
  - rewrite /tryCatch /lift /throw /mbind /St_bind /mret /St_ret.
    destruct raw as [|v]; [apply seed_result|].
    destruct (parse (storeSchema v)) as [parsed|e]; [|apply seed_result].
    case_decide; [apply seed_result|].
    destruct (normalizeStoreOf _ _ _) as [n|e] eqn:En; [|apply seed_result].
    pose proof (persist_inMemory n w) as Hmem.
    destruct (persist n w) as [[[]|e] w'] eqn:Ep; simpl in Hmem |- *.
    + split; [done|]. intros s [= <-]. by eapply normalizeStoreOf_invariant.
    + rewrite -Hmem. apply seed_result.
  - apply seed_result.
  - rewrite /lift. destruct (normalizeStore _) as [n|e] eqn:En; simpl; split; try done.
    intros s [= <-]. by eapply normalizeStoreOf_invariant.
Qed.

Lemma rehydrateInMemory_invariant now generateId w :
  invariant w -> invariant (rehydrateInMemory now generateId w).2.
Proof.
  intros H. rewrite /rehydrateInMemory /snapshot /get /modify /mbind /St_bind /mret /St_ret.
  destruct (hydrateFromStorage_result now generateId w) as [Hm Hs].
  destruct (hydrateFromStorage now generateId w) as [[s|e] w']; simpl in Hm, Hs |- *.
  - rewrite /invariant /= ?cloneStore_id. by apply Hs.
  - by rewrite /invariant Hm.
Qed.

Lemma execute_invariant op w : invariant w -> invariant (execute op w).2.
Proof.
  intros H. destruct op as [m|changes|deckId|store|now generateId]; simpl;
    rewrite ?bind_ret_snd.
  - by apply perform_invariant.
  - by apply mutateStore_invariant.
  - by apply mutateStore_invariant.
  - by apply saveStore_invariant.
  - by apply rehydrateInMemory_invariant.
Qed.

Lemma mutateStore_memory {T} (mutator : St StoreState T) w result draft normalized :
  mutator (inMemoryStore w) = (Returned result, draft) ->
  normalizeStore draft = Returned normalized ->
  inMemoryStore (mutateStore mutator w).2 = normalized.
Proof.
  intros Hm Hn. rewrite mutateStore_unfold Hm Hn.
  pose proof (persist_inMemory normalized (set_inMemoryStore normalized w)) as H.
  by destruct (persist normalized _) as [[[]|e] w'].
Qed.

Lemma updateSettings_mutator_run changes st :
  updateSettings_mutator changes st =
  (Returned (updatedSettings changes (settings st)),
   mkStore (decks st) (cardsByDeck st) (updatedSettings changes (settings st))).
Proof. done. Qed.

Lemma setLastDeckId_mutator_run deckId st :
  setLastDeckId_mutator deckId st =
  (Returned tt,
   mkStore (decks st) (cardsByDeck st)
           (set_lastDeckId (if rememberLastDeck (settings st) then deckId else None)
                           (settings st))).
Proof. rewrite /setLastDeckId_mutator. run_St. by destruct (rememberLastDeck _). Qed.

Lemma updateSettings_stopRemembering w :
  normalStore (inMemoryStore w) ->
  rememberLastDeck (settings (inMemoryStore (updateSettings stopRemembering w).2)) = false
  /\ lastDeckId (settings (inMemoryStore (updateSettings stopRemembering w).2)) = None.
Proof.
  intros Hn. destruct (normalStore_inv _ Hn) as (Hd & _ & _).
  rewrite /updateSettings bind_ret_snd.
  rewrite (mutateStore_memory _ w _ _ _ (updateSettings_mutator_run _ _)
             (normalStore_intro _ _ _ Hd (normalStore_readable _ Hn))).
  by rewrite normalizeSettings_full.
Qed.

Lemma setLastDeckId_not_remembering w deckId :
  normalStore (inMemoryStore w) ->
  rememberLastDeck (settings (inMemoryStore w)) = false ->
  lastDeckId (settings (inMemoryStore (setLastDeckId deckId w).2)) = None.
Proof.
  intros Hn Hr. destruct (normalStore_inv _ Hn) as (Hd & _ & _).
  rewrite /setLastDeckId bind_ret_snd.
  rewrite (mutateStore_memory _ w _ _ _ (setLastDeckId_mutator_run _ _)
             (normalStore_intro _ _ _ Hd (normalStore_readable _ Hn))).
  by rewrite normalizeSettings_full /= Hr.
Qed.

(** C5. [settings.lastDeckId] is absent whenever
    [settings.rememberLastDeck] is false: so it is once the module has
    initialised, and every operation keeps it so, whether it returns or
    throws; [updateSettings({ rememberLastDeck: false })] leaves
    [lastDeckId] absent, and so does [setLastDeckId] while
    [rememberLastDeck] is false. *)
Theorem lastDeckId_invariant :
  (forall storage now generateId, invariant (initialise storage now generateId).2)
  /\ (forall op w, invariant w -> invariant (execute op w).2)
  /\ (forall w, normalStore (inMemoryStore w) ->
        rememberLastDeck (settings (inMemoryStore (updateSettings stopRemembering w).2))
        = false
        /\ lastDeckId (settings (inMemoryStore (updateSettings stopRemembering w).2))
           = None)
  /\ (forall w deckId,
        normalStore (inMemoryStore w) ->
        rememberLastDeck (settings (inMemoryStore w)) = false ->
        lastDeckId (settings (inMemoryStore (setLastDeckId deckId w).2)) = None).
Proof.
  split; [|split; [|split]].
  - intros storage now generateId. by apply rehydrateInMemory_invariant.
  - apply execute_invariant.
  - apply updateSettings_stopRemembering.
  - apply setLastDeckId_not_remembering.
Qed.

(** *** Distinct identifiers *)

(** Distinct identifiers stay distinct: no mutation repeats one, given
    that a new identifier is fresh. *)
Lemma normalizeStoreOf_ids ds cs st n :
  normalizeStoreOf ds cs st = Returned n -> deck_id <$> decks n = deck_id <$> ds.
Proof.
  intros (ds' & E & _ & ->)%normalizeStoreOf_Returned.
  simpl. apply mapOutcome_Returned in E.
  induction E as [|d d' ds ds' Hd _ IH]; [done|].
  rewrite !fmap_cons IH. f_equal. revert Hd. rewrite /normalizeDeck.
  destruct (reformat (createdAt d)); simpl; [|done].
  destruct (reformat (updatedAt d)); simpl; [|done]. by intros [= <-].
Qed.

Lemma ids_alter (f : Deck -> Deck) (i : nat) (ds : list Deck) :
  (forall d, deck_id (f d) = deck_id d) -> deck_id <$> alter f i ds = deck_id <$> ds.
Proof.
  intros H. revert i. induction ds as [|d ds IH]; intros [|i]; try done.
  - cbn. by rewrite H.
  - specialize (IH i). cbn in IH |- *. by rewrite IH.
Qed.

Lemma updateDeck_mutator_ids now deckId changes st :
  deck_id <$> decks (updateDeck_mutator now deckId changes st).2 = deck_id <$> decks st.
Proof.
  rewrite /updateDeck_mutator. run_St.
  destruct (findIndex (hasId deckId) (decks st)) as [i|]; [|done].
  destruct (upd_title changes) as [t|]; [destruct (isEmpty (trim t)); [done|]|];
    run_St; destruct (upd_description changes) as [[desc|]|]; run_St;
    repeat case_match; simpl; by rewrite !ids_alter.
Qed.

Lemma addCard_mutator_ids now newId deckId f b st :
  deck_id <$> decks (addCard_mutator now newId deckId f b st).2 = deck_id <$> decks st.
Proof.
  rewrite /addCard_mutator. run_St.
  destruct (findIndex (hasId deckId) (decks st)) as [i|]; [|done].
  destruct (arrayAt (cardsByDeck st) deckId) as [cards|e]; [|done].
  simpl. by rewrite ids_alter.
Qed.

Lemma updateCard_mutator_ids now deckId cardId changes st :
  deck_id <$> decks (updateCard_mutator now deckId cardId changes st).2
  = deck_id <$> decks st.
Proof.
  rewrite /updateCard_mutator. run_St.
  destruct (findIndex (hasId deckId) (decks st)) as [i|]; [|done].
  destruct (arrayAt (cardsByDeck st) deckId) as [cards|e]; [|done].
  destruct (findIndex (hasCardId cardId) _) as [j|]; [|done].
  destruct (upd_front changes) as [tf|]; [destruct (isEmpty (trim tf)); [done|]|];
    run_St;
    (destruct (upd_back changes) as [tb|]; [destruct (isEmpty (trim tb)); [done|]|]);
    run_St; repeat case_match; simpl; by rewrite ?ids_alter.
Qed.

Lemma deleteCard_mutator_ids now deckId cardId st :
  deck_id <$> decks (deleteCard_mutator now deckId cardId st).2 = deck_id <$> decks st.
Proof.
  rewrite /deleteCard_mutator. run_St.
  destruct (findIndex (hasId deckId) (decks st)) as [i|]; [|done].
  destruct (arrayAt (cardsByDeck st) deckId) as [cards|e]; [|done].
  destruct (findIndex (hasCardId cardId) _) as [j|]; [|done].
  simpl. by rewrite ids_alter.
Qed.

Lemma deleteDeck_mutator_ids deckId st :
  deck_id <$> decks (deleteDeck_mutator deckId st).2 `sublist_of` deck_id <$> decks st.
Proof.
  rewrite /deleteDeck_mutator. run_St.
  destruct (findIndex (hasId deckId) (decks st)) as [i|]; [|done].
  run_St. case_decide; simpl; apply fmap_sublist, sublist_delete.
Qed.

Lemma mutateStore_distinct {T} (mutator : St StoreState T) w :
  distinct w ->
  NoDup (deck_id <$> decks (mutator (inMemoryStore w)).2) ->
  distinct (mutateStore mutator w).2.
Proof.
  intros Hw Hm. rewrite /distinct.
  destruct (mutateStore_inMemory mutator w) as [->|(r & d & Hrun & Hn)]; [done|].
  rewrite (normalizeStoreOf_ids _ _ _ _ Hn). by rewrite Hrun in Hm.
Qed.

Lemma perform_distinct m w : distinct w -> fresh m w -> distinct (perform m w).2.
Proof.
  intros Hw Hf.
  destruct m as [now newId input|now deckId changes|deckId|now newId deckId input
                 |now deckId cardId changes|now deckId cardId]; simpl;
    rewrite ?bind_ret_snd.
  - rewrite /createDeck. destruct (isEmpty _); [done|].
    rewrite bind_ret_snd. apply mutateStore_distinct; [done|].
    rewrite /= fmap_app /=. apply NoDup_app. split; [done|].
    split; [|apply NoDup_singleton].
    intros k Hk ->%list_elem_of_singleton. by apply Hf.
  - apply mutateStore_distinct; [done|]. by rewrite updateDeck_mutator_ids.
  - apply mutateStore_distinct; [done|].
    eapply sublist_NoDup; [exact Hw|apply deleteDeck_mutator_ids].
  - rewrite /addCard. destruct (_ || _); [done|].
    rewrite bind_ret_snd. apply mutateStore_distinct; [done|].
    by rewrite addCard_mutator_ids.
  - apply mutateStore_distinct; [done|]. by rewrite updateCard_mutator_ids.
  - apply mutateStore_distinct; [done|]. by rewrite deleteCard_mutator_ids.
Qed.

(** *** Validation *)







(** *** Hydration *)

Lemma createSampleStore_normalizes now generateId :
  printable now ->
  normalizeStore (createSampleStore now generateId) = Returned (seeded now generateId).
Proof.
  intros [_ Hp].
  apply (normalStore_intro (decks (createSampleStore now generateId))
                           (cardsByDeck (createSampleStore now generateId))
                           defaultSettings).
  - repeat constructor; by rewrite /normalDeck /normalizeDeck /reformat /= Hp.
  - simpl. constructor; [apply readable_insert, readable_inserted|].
    constructor; [apply readable_inserted|constructor].
Qed.

Lemma seeded_valid now generateId :
  printable now -> (forall i, (i < 15)%nat -> generateId i <> EmptyString) ->
  validStore (seeded now generateId).
Proof.
  intros [Hne Hp] Hid. split; [|split].
  - repeat constructor; simpl; rewrite ?Hp; eauto; apply Hid; lia.
  - intros k cards. rewrite /seeded rebuilt_lookup. case_decide as Hk; [|done].
    intros [= <-]. simpl.
    destruct (decide (generateId 1%nat = k)) as [<-|Hne1].
    + rewrite lookup_insert_eq /=.
      repeat constructor; simpl; try done; try (apply Hid; lia).
    + rewrite lookup_insert_ne //.
      destruct (decide (generateId 0%nat = k)) as [<-|Hne0].
      * rewrite lookup_insert_eq /=.
        repeat constructor; simpl; try done; try (apply Hid; lia).
      * by rewrite lookup_insert_ne // lookup_empty.
  - apply rebuilt_entries.
Qed.

Lemma seed_run now generateId w slot :
  printable now -> (forall i, (i < 15)%nat -> generateId i <> EmptyString) ->
  localStorage w = Some slot ->
  seed now generateId w =
  (Returned (seeded now generateId),
   mkWorld (inMemoryStore w)
           (Some (Some (Document (toJSON (validJS (validated (seeded now generateId)))))))).
Proof.
  intros Hp Hid Hs. rewrite /seed /lift /mbind /St_bind /mret /St_ret.
  rewrite createSampleStore_normalizes // persist_valid; [|by apply seeded_valid].
  by rewrite Hs.
Qed.

Lemma normalizeStoreOf_length ds cs st n :
  normalizeStoreOf ds cs st = Returned n -> List.length (decks n) = List.length ds.
Proof.
  intros H%normalizeStoreOf_ids.
  by rewrite -(length_fmap deck_id (decks n)) H length_fmap.
Qed.

Lemma seed_Returned now generateId w s :
  (seed now generateId w).1 = Returned s -> List.length (decks s) = 2%nat.
Proof.
  rewrite /seed /lift /mbind /St_bind /mret /St_ret.
  destruct (normalizeStore _) as [n|e] eqn:En; [|done].
  apply normalizeStoreOf_length in En.
  destruct (persist n w) as [[[]|e] w']; simpl; [|done]. by intros [= <-].
Qed.

(** Whatever the storage holds, hydration returns no store without
    decks. *)
Lemma hydrateFromStorage_decks now generateId w s :
  (hydrateFromStorage now generateId w).1 = Returned s -> decks s <> [].
Proof.
  assert (forall w0, (seed now generateId w0).1 = Returned s -> decks s <> []) as Hseed.
  { intros w0 H%seed_Returned. by destruct (decks s). }
  rewrite /hydrateFromStorage /get /mbind /St_bind.
  destruct (localStorage w) as [[raw|]|] eqn:Es; [|by apply Hseed|].
  - rewrite /tryCatch /lift /throw /mbind /St_bind /mret /St_ret.
    destruct raw as [|v]; [by apply Hseed|].
    destruct (parse (storeSchema v)) as [parsed|e]; [|by apply Hseed].
    case_decide as Hlen; [by apply Hseed|].
    destruct (normalizeStoreOf _ _ _) as [n|e] eqn:En; [|by apply Hseed].
    apply normalizeStoreOf_length in En.
    destruct (persist n w) as [[[]|e] w'] eqn:Ep; simpl; [|by apply Hseed].
    intros [= <-]. destruct (decks n); [|done]. simpl in En. congruence.
  - rewrite /lift. destruct (normalizeStore _) as [n|e] eqn:En; simpl; [|done].
    intros [= <-]. apply normalizeStoreOf_length in En. by destruct (decks n).
Qed.

Lemma seeded_distinct now generateId :
  generateId 0%nat <> generateId 1%nat ->
  NoDup (deck_id <$> decks (seeded now generateId)).
Proof.
  intros H. simpl. apply NoDup_cons. split; [|apply NoDup_singleton].
  by intros ?%list_elem_of_singleton.
Qed.

(** C10. A stored document that passes the schema but holds no deck is
    treated as a corrupt one: hydration runs the handler of the [catch],
    which returns the normalised sample, of two decks, and writes it
    over the stored document; and no store without decks is ever what
    hydration returns. *)
Theorem hydrate_empty_store_reseeds (now : Z) (generateId : nat -> string)
    (w : World) :
  (forall document parsed,
     localStorage w = Some (Some (Document document)) ->
     parse (storeSchema document) = Returned parsed ->
     v_decks parsed = [] ->
     hydrateFromStorage now generateId w = seed now generateId w
     /\ (printable now -> (forall i, (i < 15)%nat -> generateId i <> EmptyString) ->
         hydrateFromStorage now generateId w =
         (Returned (seeded now generateId),
          mkWorld (inMemoryStore w)
                  (Some (Some (Document
                     (toJSON (validJS (validated (seeded now generateId))))))))
         /\ title <$> decks (seeded now generateId)
            = ["Mindful Moments"; "Bible Verses"]
         /\ deck_id <$> decks (seeded now generateId)
            = [generateId 0%nat; generateId 1%nat]))
  /\ (forall s, (hydrateFromStorage now generateId w).1 = Returned s -> decks s <> []).
Proof.
  split; [|apply hydrateFromStorage_decks].
  intros document parsed Hs Hparse Hempty.
  assert (hydrateFromStorage now generateId w = seed now generateId w) as Hcatch.
  { rewrite /hydrateFromStorage /get /mbind /St_bind Hs.
    rewrite /tryCatch /lift /throw /mbind /St_bind Hparse Hempty /=. done. }
  split; [done|]. intros Hp Hid. split; [|done].
  rewrite Hcatch. by eapply seed_run.
Qed.

End Store.

(** ** The settings schema *)

Lemma studyMode_caught v :
  zCatch (defaultStudyMode defaultSettings) (zStudyMode v)
  = valid (default ordered (studyModeOf v)).
Proof.
  destruct v; try done. rewrite /zStudyMode /studyModeOf.
  by repeat case_decide.
Qed.

Lemma boolean_caught v : zCatch false (zBoolean v) = valid (default false (booleanOf v)).
Proof. by destruct v. Qed.

Lemma lastDeckId_parsed v :
  zTransform (fun value : option string => value) (zNullable (zOptional zString) v)
  = match lastDeckIdOf v with
    | Some last => valid last
    | None => aborted (invalid_type "string")
    end.
Proof. by destruct v. Qed.

(** C7, as the code has it. [defaultStudyMode], [rememberLastDeck] and
    [reducedMotion] are defaulted one by one where missing or of another
    type; [lastDeckId] reads as absent where missing or [null]; a
    [lastDeckId] of another type is not defaulted, it fails the settings
    object. *)
Theorem settingsSchema_defaults (o : list (string * JValue)) :
  settingsSchema (JObject o) =
  match lastDeckIdOf (getField o "lastDeckId") with
  | Some last =>
      valid (mkSettings (default ordered (studyModeOf (getField o "defaultStudyMode")))
                        (default false (booleanOf (getField o "rememberLastDeck")))
                        (default false (booleanOf (getField o "reducedMotion")))
                        last)
  | None => aborted (invalid_type "string")
  end.
Proof.
  rewrite /settingsSchema studyMode_caught !boolean_caught lastDeckId_parsed.
  by destruct (lastDeckIdOf _).
Qed.

(** C7 as stated fails: a [lastDeckId] that is a number fails the
    settings object, and the store that holds it. *)
Lemma settingsSchema_lastDeckId_not_defaulted :
  parse (settingsSchema Example.numberedSettings) = Threw (ZodError [invalid_type "string"])
  /\ parse (storeSchema Runtime.parseDate
              (JObject [("decks", JArray []); ("cardsByDeck", JObject []);
                        ("settings", Example.numberedSettings)]))
     = Threw (ZodError [invalid_type "string"]).
Proof. split; reflexivity. Qed.

(** ** Import *)

(** C8. The CSV text of the import test parses to the header and two
    rows, and imports as exactly two cards: the quoted comma kept, the
    doubled quotes single. *)
Theorem parseCsv_phrases :
  parseCsv Example.phrases =
  Returned [mkSides "Greeting, friendly"
                    ("Hello, " +:+ Example.quote +:+ "friend" +:+ Example.quote +:+ "!");
            mkSides "Affirmation" "You are capable"]
  /\ parseCsvFile Example.phrases "phrases.csv" =
     Returned (mkImportPreview "phrases" None
                 [mkSides "Greeting, friendly"
                          ("Hello, " +:+ Example.quote +:+ "friend" +:+ Example.quote +:+ "!");
                  mkSides "Affirmation" "You are capable"]
                 csv "phrases.csv").
Proof. split; reflexivity. Qed.

Lemma sanitizedCards_kept cs :
  sanitizedCards ((fun c => mkSides (imp_front c) (imp_back c)) <$> cs) = keptCards cs.
Proof.
  rewrite /sanitizedCards /keptCards.
  induction cs as [|c cs IH]; [done|].
  rewrite !fmap_cons. cbn [List.filter side_front side_back]. rewrite IH.
  destruct (trim (imp_front c)) as [|a front'] eqn:Ef.
  { rewrite filter_cons_False //. rewrite ?Ef. naive_solver. }
  destruct (trim (imp_back c)) as [|b back'] eqn:Eb.
  { rewrite filter_cons_False //. rewrite ?Eb. naive_solver. }
  rewrite filter_cons_True; [|by rewrite ?Ef ?Eb].
  by rewrite fmap_cons ?Ef ?Eb.
Qed.

(** C9, as the code has it. For a file the import schema accepts, the
    cards with a blank front or back are dropped and the others kept,
    trimmed and in order; the import goes through with them unless none
    is left, and then it is refused. *)
Theorem parseJson_keeps_filled_cards (raw : JValue) (parsed : ImportDocument)
    (name : string) :
  parse (importJsonSchema raw) = Returned parsed ->
  parseJson (Returned raw) name =
  match keptCards (imp_cards parsed) with
  | [] => Threw (Error "No cards with valid front/back content were found")
  | kept =>
      Returned (mkImportPreview
                  (if isEmpty (imp_title (imp_deck parsed)) then DEFAULT_DECK_TITLE
                   else imp_title (imp_deck parsed))
                  (imp_description (imp_deck parsed)) kept json name)
  end.
Proof.
  intros H. rewrite /parseJson /= H /= sanitizedCards_kept.
  by destruct (keptCards _).
Qed.

(** C9 as stated fails: a file the schema accepts, whose only card has
    a blank front, is refused. *)
Lemma parseJson_blank_cards_refused :
  (exists parsed, parse (importJsonSchema Example.blankImport) = Returned parsed)
  /\ parseJson (Returned Example.blankImport) "evening.json"
     = Threw (Error "No cards with valid front/back content were found").
Proof. split; [eexists|]; reflexivity. Qed.

Lemma parseJson_keeps_filled_cards_witness :
  parse (importJsonSchema Example.mixedImport)
  = Returned (mkImportDocument
                (mkImportDeck (Some "evening") "Evening Routine" (Some "Wind down focus"))
                [mkImportCard (Some "1") " Breath count " "4-7-8";
                 mkImportCard None "Reflection" "   ";
                 mkImportCard (Some "3") "Reflection" "Note a calming highlight"])
  /\ parseJson (Returned Example.mixedImport) "evening.json"
     = Returned (mkImportPreview "Evening Routine" (Some "Wind down focus")
                   [mkSides "Breath count" "4-7-8";
                    mkSides "Reflection" "Note a calming highlight"]
                   json "evening.json").
Proof.
  split; [reflexivity|].
  rewrite (parseJson_keeps_filled_cards Example.mixedImport _ "evening.json" eq_refl).
  reflexivity.
Defined.

(** ** The theorems at work, with the runtime to compute with *)

Module Checked.

Abbreviation parseDate := Runtime.parseDate.
Abbreviation toISOString := Runtime.toISOString.

Lemma timestamp_settles : settles parseDate toISOString Example.timestamp.
Proof. exists 1704067200000. split; reflexivity. Qed.

Lemma now_printable : printable parseDate toISOString Example.now.
Proof. split; [by vm_compute|reflexivity]. Qed.

Lemma deck_valid : validDeck parseDate Example.deck.
Proof. repeat split; try done; by eexists; vm_compute. Qed.

Lemma world_steady : steady parseDate toISOString Example.world.
Proof.
  split; [by vm_compute|]. split; [|split].
  - repeat constructor; apply deck_valid.
  - apply map_Forall_singleton. by repeat constructor.
  - repeat constructor. by eexists.
Qed.

Lemma generateId_filled i : Example.generateId i <> EmptyString.
Proof. done. Qed.

(** The two tests of the store, replayed: after [saveStore(baseStore())],
    with the clock at [Example.now]. *)
Example creates_a_deck_with_trimmed_metadata :
  exists store w',
    createDeck parseDate toISOString Example.now "00000000-0000-0000-0000-00000000de01"
      (mkCreateDeckInput "  Calm Flow  " (Some "  steady focus  "))
      (saveStore parseDate toISOString Example.baseStore
                 (mkWorld uninitialised (Some None))).2
    = (Returned (mkDeck "00000000-0000-0000-0000-00000000de01" "Calm Flow"
                        (Some "steady focus")
                        "2025-01-01T00:00:00.000Z" "2025-01-01T00:00:00.000Z", store), w')
    /\ cardsByDeck store !! "00000000-0000-0000-0000-00000000de01" = Some []
    /\ is_Some (getDeck w' "00000000-0000-0000-0000-00000000de01")
    /\ cardsByDeck (loadStore w') !! "00000000-0000-0000-0000-00000000de01" = Some [].
Proof.
  eexists _, _. split; [by vm_compute|]. split; [by vm_compute|].
  split; [|by vm_compute]. eexists. by vm_compute.
Qed.

Example adds_a_card_with_trimmed_content :
  exists store w',
    addCard parseDate toISOString Example.now "00000000-0000-0000-0000-00000000ca12"
      "deck-existing" (mkCardInput "  Front prompt  " "  Back response  ")
      (saveStore parseDate toISOString Example.baseStore
                 (mkWorld uninitialised (Some None))).2
    = (Returned (mkCard "00000000-0000-0000-0000-00000000ca12"
                        "Front prompt" "Back response", store), w')
    /\ cardsByDeck store !! "deck-existing"
       = Some [mkCard "00000000-0000-0000-0000-00000000ca12"
                      "Front prompt" "Back response"]
    /\ updatedAt <$> getDeck w' "deck-existing" = Some "2025-01-01T00:00:00.000Z".
Proof.
  eexists _, _. split; [by vm_compute|]. split; by vm_compute.
Qed.

End Checked.

Lemma normalizeStore_idempotent_witness :
  Forall (settledDeck Runtime.parseDate Runtime.toISOString) (decks Example.draft)
  /\ exists s1,
       normalizeStore Runtime.parseDate Runtime.toISOString Example.draft = Returned s1
       /\ normalizeStore Runtime.parseDate Runtime.toISOString s1 = Returned s1.
Proof.
  assert (Forall (settledDeck Runtime.parseDate Runtime.toISOString) (decks Example.draft))
    as H by (repeat constructor; apply Checked.timestamp_settles).
  split; [exact H|].
  apply (proj1 (proj2 (normalizeStore_idempotent Runtime.parseDate Runtime.toISOString
                         Example.draft H))).
  constructor; [|constructor]. left. by eexists.
Defined.

Lemma mutation_atomic_on_failure_witness :
  blank "   "
  /\ exists message,
       perform Runtime.parseDate Runtime.toISOString
               (CreateDeck Example.now "new-1" (mkCreateDeckInput "   " None)) Example.world
       = (Threw (Error message), Example.world).
Proof.
  split; [reflexivity|].
  apply (proj1 (mutation_atomic_on_failure Runtime.parseDate Runtime.toISOString
                  (CreateDeck Example.now "new-1" (mkCreateDeckInput "   " None))
                  Example.world)).
  reflexivity.
Defined.

Lemma createDeck_listed_witness :
  exists store w',
    createDeck Runtime.parseDate Runtime.toISOString Example.now "new-1"
               (mkCreateDeckInput "  Calm Flow  " (Some "  steady focus  ")) Example.world
    = (Returned (created Runtime.toISOString Example.now "new-1"
                   (mkCreateDeckInput "  Calm Flow  " (Some "  steady focus  ")), store), w')
    /\ List.length (titled "Calm Flow" (listDecks Runtime.localeCompare w')) = 1%nat
    /\ listCards w' "new-1" = Returned [].
Proof.
  destruct (createDeck_listed Runtime.parseDate Runtime.toISOString Runtime.localeCompare
              Example.now "new-1"
              (mkCreateDeckInput "  Calm Flow  " (Some "  steady focus  ")) Example.world
              Checked.world_steady Checked.now_printable)
    as (store & w' & Hrun & _ & _ & _ & Hcount & Hcards); [done|by vm_compute|].
  exists store, w'. split; [exact Hrun|]. split; [|exact Hcards].
  exact Hcount.
Defined.

(** C3 as stated fails: the store holds a deck titled "Existing Deck";
    creating another of that title returns, and [listDecks] then holds
    two decks with that title. *)
Lemma createDeck_title_not_unique :
  ¬ blank "Existing Deck"
  /\ exists created store w',
       createDeck Runtime.parseDate Runtime.toISOString Example.now "new-1"
                  (mkCreateDeckInput "Existing Deck" None) Example.world
       = (Returned (created, store), w')
       /\ List.length (titled "Existing Deck" (listDecks Runtime.localeCompare w')) = 2%nat.
Proof.
  split; [by vm_compute|].
  eexists _, _, _. split; [by vm_compute|]. by vm_compute.
Qed.



Lemma lastDeckId_invariant_witness :
  invariant Example.world
  /\ invariant (execute Runtime.parseDate Runtime.toISOString
                        (UpdateSettings stopRemembering) Example.world).2
  /\ lastDeckId (settings (inMemoryStore
                   (updateSettings Runtime.parseDate Runtime.toISOString
                                   stopRemembering Example.world).2)) = None.
Proof.
  assert (invariant Example.world) as H by done.
  split; [exact H|]. split.
  - exact (proj1 (proj2 (lastDeckId_invariant Runtime.parseDate Runtime.toISOString))
             (UpdateSettings stopRemembering) Example.world H).
  - exact (proj2 (proj1 (proj2 (proj2
             (lastDeckId_invariant Runtime.parseDate Runtime.toISOString)))
             Example.world (proj1 Checked.world_steady))).
Defined.



Lemma hydrate_empty_store_reseeds_witness :
  parse (storeSchema Runtime.parseDate Example.emptyDocument) = Returned (mkValid [] ∅ None)
  /\ hydrateFromStorage Runtime.parseDate Runtime.toISOString Example.now Example.generateId
       (mkWorld uninitialised (Some (Some (Document Example.emptyDocument))))
     = (Returned (seeded Runtime.toISOString Example.now Example.generateId),
        mkWorld uninitialised
          (Some (Some (Document
             (toJSON (validJS (validated
                (seeded Runtime.toISOString Example.now Example.generateId))))))))
  /\ title <$> decks (seeded Runtime.toISOString Example.now Example.generateId)
     = ["Mindful Moments"; "Bible Verses"].
Proof.
  split; [reflexivity|].
  destruct (proj1 (hydrate_empty_store_reseeds Runtime.parseDate Runtime.toISOString
                     Example.now Example.generateId
                     (mkWorld uninitialised (Some (Some (Document Example.emptyDocument)))))
              Example.emptyDocument (mkValid [] ∅ None) eq_refl eq_refl eq_refl)
    as (_ & Hseeded).
  destruct (Hseeded Checked.now_printable (fun i _ => Checked.generateId_filled i))
    as (Hrun & Htitles & _).
  split; [exact Hrun|exact Htitles].
Defined.
